(** * DTSynth: the device-tree blob parser [dtsynth/dtb_parser.py]

    A shallow embedding of [DtbParser] and of the Python built-ins it
    calls, followed by the properties of the property decoder, the two
    tree traversals and the phandle index. *)

From Stdlib Require Import ZArith List Bool Lia.
From Stdlib.Strings Require Import Byte Ascii String.
From stdpp Require Import base decidable option list gmap.

#[local] Set Warnings "-register-all,-clear-no-such-hyp".
Local Open Scope Z_scope.

(** ** Python values *)

(** [bytes] is an immutable sequence of octets; [str] is a sequence of
    Unicode code points. *)
Abbreviation bytes := (list byte).
Abbreviation str := (list Z).

Definition byte_val (b : byte) : Z := Z.of_N (Byte.to_N b).

#[global] Instance byte_eq_dec : EqDecision byte := Byte.byte_eq_dec.

(** A [str] literal written with ASCII characters. *)
Fixpoint py (s : String.string) : str :=
  match s with
  | String.EmptyString => []
  | String.String c r => Z.of_N (Ascii.N_of_ascii c) :: py r
  end.

Arguments py : simpl never.

(** The code points of ['/'] and ['@']. *)
Abbreviation slash := 47%Z.
Abbreviation at_sign := 64%Z.

(** ** Exceptions *)

Inductive exn : Set := IndexError | KeyError.

Inductive result (A : Type) : Type :=
| Ok (a : A)
| Raise (e : exn).

Arguments Ok {A} a.
Arguments Raise {A} e.

#[global] Instance result_ret : MRet result := fun A a => Ok a.

#[global] Instance result_bind : MBind result := fun A B k m =>
  match m with
  | Ok a => k a
  | Raise e => Raise e
  end.

#[global] Instance result_fmap : FMap result := fun A B f m =>
  match m with
  | Ok a => Ok (f a)
  | Raise e => Raise e
  end.

(** The call returns normally. *)
Definition returns {A} (m : result A) : Prop := exists a, m = Ok a.

(** ** Built-in sequence operations *)

Section Sequences.
Context {A : Type} `{EqDecision A}.

(** [sep in s], for a one-element [sep]. *)
Definition contains (sep : A) (s : list A) : bool :=
  existsb (fun x => bool_decide (x = sep)) s.

(** [s.split(sep)], for a one-element [sep]: the segments between the
    occurrences of [sep], empty ones included. *)
Fixpoint split (sep : A) (s : list A) : list (list A) :=
  match s with
  | [] => [[]]
  | x :: r =>
      if bool_decide (x = sep) then [] :: split sep r
      else match split sep r with
           | [] => [[x]]
           | seg :: segs => (x :: seg) :: segs
           end
  end.

(** [s.join(segs)], for a one-element [s]. *)
Fixpoint join (sep : A) (segs : list (list A)) : list A :=
  match segs with
  | [] => []
  | [seg] => seg
  | seg :: rest => seg ++ sep :: join sep rest
  end.

(** [l[i]]: a negative index counts from the end, an index out of range
    raises. *)
Definition getitem (l : list A) (i : Z) : result A :=
  let n := Z.of_nat (length l) in
  let j := if i <? 0 then i + n else i in
  if (0 <=? j) && (j <? n) then
    match l !! Z.to_nat j with
    | Some x => Ok x
    | None => Raise IndexError
    end
  else Raise IndexError.

(** [l[i:j]]: bounds are clipped to the sequence, never an error. *)
Definition slice (l : list A) (i j : Z) : list A :=
  let n := Z.of_nat (length l) in
  let clip k := if k <? 0 then Z.max 0 (k + n) else Z.min k n in
  drop (Z.to_nat (clip i)) (take (Z.to_nat (clip j)) l).

End Sequences.

(** [range(start, stop, step)] for a positive [step]. *)
Definition range (start stop step : Z) : list Z :=
  (fun k => start + step * Z.of_nat k)
    <$> seq 0 (Z.to_nat ((stop - start + step - 1) / step)).

(** [int.from_bytes(b, byteorder='big')]. *)
Definition from_bytes_big (b : bytes) : Z :=
  fold_left (fun acc x => acc * 256 + byte_val x) b 0.

(** [n.to_bytes(k, byteorder='big')], the inverse on [k] octets. *)
Fixpoint to_bytes_big (k : nat) (n : Z) : list Z :=
  match k with
  | O => []
  | S k' => (n / 256 ^ Z.of_nat k') mod 256 :: to_bytes_big k' n
  end.

(** ** [bytes.decode('utf-8', errors='ignore')]

    The decoder reads one scalar value at a time.  A byte that cannot
    start a sequence is dropped; a lead byte whose continuation is
    wrong is dropped together with the continuation bytes already
    accepted, and decoding resumes at the offending byte; a sequence cut
    short by the end of the input is dropped. *)

Definition is_cont (c : Z) : bool := (0x80 <=? c) && (c <? 0xC0).

Fixpoint utf8_ignore (s : bytes) : str :=
  match s with
  | [] => []
  | b1 :: s1 =>
    let c1 := byte_val b1 in
    if c1 <? 0x80 then c1 :: utf8_ignore s1
    else if c1 <? 0xC2 then utf8_ignore s1
    else if c1 <? 0xE0 then
      match s1 with
      | [] => []
      | b2 :: s2 =>
        let c2 := byte_val b2 in
        if is_cont c2
        then ((c1 - 0xC0) * 64 + (c2 - 0x80)) :: utf8_ignore s2
        else utf8_ignore s1
      end
    else if c1 <? 0xF0 then
      match s1 with
      | [] => []
      | b2 :: s2 =>
        let c2 := byte_val b2 in
        if negb (is_cont c2)
           || (if c2 <? 0xA0 then c1 =? 0xE0 else c1 =? 0xED)
        then utf8_ignore s1
        else match s2 with
             | [] => []
             | b3 :: s3 =>
               let c3 := byte_val b3 in
               if is_cont c3
               then ((c1 - 0xE0) * 4096 + (c2 - 0x80) * 64 + (c3 - 0x80))
                      :: utf8_ignore s3
               else utf8_ignore s2
             end
      end
    else if c1 <? 0xF5 then
      match s1 with
      | [] => []
      | b2 :: s2 =>
        let c2 := byte_val b2 in
        if negb (is_cont c2)
           || (if c2 <? 0x90 then c1 =? 0xF0 else c1 =? 0xF4)
        then utf8_ignore s1
        else match s2 with
             | [] => []
             | b3 :: s3 =>
               let c3 := byte_val b3 in
               if negb (is_cont c3) then utf8_ignore s2
               else match s3 with
                    | [] => []
                    | b4 :: s4 =>
                      let c4 := byte_val b4 in
                      if is_cont c4
                      then ((c1 - 0xF0) * 262144 + (c2 - 0x80) * 4096
                            + (c3 - 0x80) * 64 + (c4 - 0x80))
                             :: utf8_ignore s4
                      else utf8_ignore s3
                    end
             end
      end
    else utf8_ignore s1
  end.

(** [for x in items: body], threading the variables the body assigns;
    an exception raised by the body ends the loop. *)
Definition for_each {X S : Type} (body : X -> S -> result S)
  : list X -> S -> result S :=
  fix loop items s :=
    match items with
    | [] => Ok s
    | x :: rest => s' ← body x s; loop rest s'
    end.

(** ** The blob decoder [fdt] *)

Module fdt.

(** Modelled from the spec: the decoder's property object.  The parser
    reads its raw bytes through [.data] and tests its truth value
    ([if phandle_prop:]); the class that fixes that truth value belongs
    to the decoder, so it is a field here. *)
Record Property : Type := mkProperty {
  data : bytes;
  truth : bool
}.

(** Modelled from the spec: the decoder's node, which enumerates its
    properties as (name, property) pairs and its direct children as
    (name, node) pairs, both in declaration order. *)
Inductive Node : Type :=
| mkNode (props : list (str * Property)) (subnodes : list (str * Node)).

Definition props (n : Node) : list (str * Property) :=
  match n with mkNode ps _ => ps end.

Definition subnodes (n : Node) : list (str * Node) :=
  match n with mkNode _ subs => subs end.

(** Modelled from the spec: lookup of one named property, which raises
    [KeyError] when the node has none of that name. *)
Definition get_property (n : Node) (name : str) : result Property :=
  match List.find (fun kv => bool_decide (kv.1 = name)) (props n) with
  | Some kv => Ok kv.2
  | None => Raise KeyError
  end.

End fdt.

(** ** Decoded values *)

Inductive PropertyValue : Type :=
| PStr (s : str)
| PStrList (l : list str)
| PInt (n : Z)
| PIntList (l : list Z)
| PBytes (b : bytes).

(** [class FdtNode]. *)
Inductive FdtNode : Type := mkFdtNode {
  name : str;
  path : str;
  properties : gmap str PropertyValue;
  children : list FdtNode
}.

(** The dictionary [build_node_dict] returns, with its five keys. *)
Module NodeDict.
Inductive t : Type := mk {
  path : str;
  name : str;
  address : option str;
  props : gmap str PropertyValue;
  children : list t
}.
End NodeDict.

(** ** [class DtbParser] *)

Record DtbParser : Type := mkDtbParser {
  _dtb : fdt.Node;
  _phandle_map : gmap Z str
}.

(** [f"{path}/{child_name}" if path != '/' else f"/{child_name}"] *)
Definition child_path_of (path child_name : str) : str :=
  if bool_decide (path ≠ py "/") then path ++ py "/" ++ child_name
  else py "/" ++ child_name.

(** [path.split('/')[-1] if path != '/' else ''] *)
Definition node_name_of (path : str) : result str :=
  if bool_decide (path ≠ py "/") then getitem (split slash path) (-1)
  else Ok (py "").

(** [_build_phandle_map]: build a mapping from phandle values to node
    paths.  [traverse_for_phandle] is its local function; the dictionary
    it updates is threaded through the walk. *)
Fixpoint traverse_for_phandle (node_path : str) (node : fdt.Node)
    (phandle_map : gmap Z str) {struct node} : result (gmap Z str) :=
  match node with
  | fdt.mkNode _ subnodes =>
    phandle_map ←
      match fdt.get_property node (py "phandle") with
      | Ok phandle_prop =>
          if fdt.truth phandle_prop then
            let phandle_val :=
              from_bytes_big (slice (fdt.data phandle_prop) 0 4) in
            Ok (<[phandle_val := node_path]> phandle_map)
          else Ok phandle_map
      | Raise KeyError => Ok phandle_map
      | Raise e => Raise e
      end;
    for_each
      (fun '(child_name, child_node) phandle_map =>
         let child_path := child_path_of node_path child_name in
         traverse_for_phandle child_path child_node phandle_map)
      subnodes phandle_map
  end.

Definition _build_phandle_map (root : fdt.Node) : result (gmap Z str) :=
  traverse_for_phandle (py "/") root ∅.

(** Modelled from the spec: [fdt.parse_dtb] belongs to the decoder and
    reading the file to the host; [root] is the node graph the decoder
    returns for the blob. *)
Definition __init__ (root : fdt.Node) : result DtbParser :=
  phandle_map ← _build_phandle_map root;
  Ok (mkDtbParser root phandle_map).

(** Decode a property value based on its content. *)
Definition _decode_property (prop_value : fdt.Property)
  : result PropertyValue :=
  let data := fdt.data prop_value in
  (* string properties (null-terminated) *)
  if contains x00 data && negb (forallb (fun b => byte_val b =? 0) data)
  then
    let string_parts := split x00 data in
    let string_parts :=
      utf8_ignore <$> filter (fun part => part ≠ []) string_parts in
    if bool_decide (length string_parts = 1%nat)
    then s ← getitem string_parts 0; Ok (PStr s)
    else Ok (PStrList string_parts)
  (* cell properties *)
  else if bool_decide (Z.of_nat (length data) mod 4 = 0)
          && bool_decide (Z.of_nat (length data) > 0)
  then
    let cells :=
      (fun i => from_bytes_big (slice data i (i + 4)))
        <$> range 0 (Z.of_nat (length data)) 4 in
    if bool_decide (length cells = 1%nat)
    then c ← getitem cells 0; Ok (PInt c)
    else Ok (PIntList cells)
  (* raw binary data *)
  else Ok (PBytes data).

(** Convert a decoder node to an [FdtNode]. *)
Fixpoint _convert_fdt_node_to_custom (path : str) (fdt_node : fdt.Node)
    {struct fdt_node} : result FdtNode :=
  match fdt_node with
  | fdt.mkNode fdt_props fdt_subnodes =>
    props ←
      for_each
        (fun '(prop_name, prop_value) props =>
           v ← _decode_property prop_value;
           Ok (<[prop_name := v]> props))
        fdt_props (∅ : gmap str PropertyValue);
    children ←
      for_each
        (fun '(child_name, child_node) children =>
           let child_path := child_path_of path child_name in
           c ← _convert_fdt_node_to_custom child_path child_node;
           Ok (children ++ [c]))
        fdt_subnodes [];
    node_name ← node_name_of path;
    Ok (mkFdtNode node_name path props children)
  end.

(** Return the root node of the device tree. *)
Definition get_root_node (self : DtbParser) : result FdtNode :=
  _convert_fdt_node_to_custom (py "/") (_dtb self).

(** [traverse_tree]: traverse the entire device tree and return a
    structured representation.  [build_node_dict] is its local function. *)
Fixpoint build_node_dict (path : str) (fdt_node : fdt.Node)
    {struct fdt_node} : result NodeDict.t :=
  match fdt_node with
  | fdt.mkNode fdt_props fdt_subnodes =>
    props ←
      for_each
        (fun '(prop_name, prop_value) props =>
           v ← _decode_property prop_value;
           Ok (<[prop_name := v]> props))
        fdt_props (∅ : gmap str PropertyValue);
    node_name ← node_name_of path;
    address ←
      (if contains at_sign node_name
       then a ← getitem (split at_sign node_name) 1; Ok (Some a)
       else Ok None);
    children ←
      for_each
        (fun '(child_name, child_node) children =>
           let child_path := child_path_of path child_name in
           c ← build_node_dict child_path child_node;
           Ok (children ++ [c]))
        fdt_subnodes [];
    Ok (NodeDict.mk path node_name address props children)
  end.

Definition traverse_tree (self : DtbParser) : result (list NodeDict.t) :=
  d ← build_node_dict (py "/") (_dtb self);
  Ok [d].

(** Extract the compatible strings from the root node. *)
Definition get_compatible_strings (self : DtbParser) : result (list str) :=
  match fdt.get_property (_dtb self) (py "compatible") with
  | Ok compatible_prop =>
      if fdt.truth compatible_prop then
        let data := fdt.data compatible_prop in
        let string_parts := split x00 data in
        Ok (utf8_ignore <$> filter (fun part => part ≠ []) string_parts)
      else Ok []
  | Raise KeyError => Ok []
  | Raise e => Raise e
  end.

(** Resolve a phandle value to its node path.  [dict.get] reads the index
    and leaves the parser as it was; the parser after the call is
    returned beside the answer. *)
Definition resolve_phandle (self : DtbParser) (phandle_value : Z)
  : DtbParser * result (option str) :=
  (self, Ok (_phandle_map self !! phandle_value)).

(** ** Vocabulary of the statements *)

(** The two byte-content rules of the decoder, in order of priority. *)
Definition string_like (d : bytes) : Prop :=
  x00 ∈ d /\ ~ Forall (fun b => b = x00) d.

Definition cell_like (d : bytes) : Prop :=
  d ≠ [] /\ Z.of_nat (length d) mod 4 = 0.

(** The raw segments that survive the [if part] filter. *)
Definition kept_segments (d : bytes) : list bytes :=
  filter (fun part => part ≠ []) (split x00 d).

(** The strings a decoded value holds. *)
Definition strings_of (v : PropertyValue) : list str :=
  match v with
  | PStr s => [s]
  | PStrList l => l
  | _ => []
  end.

Definition is_text (v : PropertyValue) : Prop :=
  match v with
  | PStr _ | PStrList _ => True
  | _ => False
  end.

(** A byte that starts no UTF-8 sequence: a continuation byte, an
    overlong lead ([C0], [C1]) or a lead beyond U+10FFFF ([F5]..[FF]). *)
Definition starts_no_text (b : byte) : Prop :=
  0x80 <= byte_val b < 0xC2 \/ 0xF5 <= byte_val b.

(** The cells of [d] as the specification words them: the consecutive
    4-byte chunks, each read as a big-endian number. *)
Fixpoint cells_of (d : bytes) : list Z :=
  match d with
  | a :: b :: c :: e :: r =>
      (byte_val a * 2 ^ 24 + byte_val b * 2 ^ 16
       + byte_val c * 2 ^ 8 + byte_val e) :: cells_of r
  | _ => []
  end.

(** ** Vocabulary of the tree statements *)

(** The nodes of a blob in the order the depth-first walk visits them,
    each with the path the walk gives it. *)
Fixpoint walk (node_path : str) (node : fdt.Node) {struct node}
  : list (str * fdt.Node) :=
  match node with
  | fdt.mkNode _ subnodes =>
      (node_path, node)
      :: flat_map (fun '(child_name, child_node) =>
                     walk (child_path_of node_path child_name) child_node)
                  subnodes
  end.

(** The phandle a node declares, as the indexer reads it: the lookup
    succeeds, the property object is true, and the value is the
    big-endian number in its first four bytes (fewer when the data is
    shorter). *)
Definition declared_phandle (n : fdt.Node) : option Z :=
  match fdt.get_property n (py "phandle") with
  | Ok prop =>
      if fdt.truth prop then Some (from_bytes_big (take 4 (fdt.data prop)))
      else None
  | Raise _ => None
  end.

(** The phandle a node declares when only properties of at least four
    bytes count. *)
Definition declared_phandle_4 (n : fdt.Node) : option Z :=
  match fdt.get_property n (py "phandle") with
  | Ok prop =>
      if bool_decide (4 <= length (fdt.data prop))%nat
      then Some (from_bytes_big (take 4 (fdt.data prop)))
      else None
  | Raise _ => None
  end.

(** The path of the last visited node that declares [k]. *)
Definition last_declaring (decl : fdt.Node -> option Z)
    (visited : list (str * fdt.Node)) (k : Z) : option str :=
  fst <$> last (filter (fun pn => decl pn.2 = Some k) visited).

(** The index the indexer is claimed to build: one entry per node with a
    [phandle] property of at least four bytes, the last visited winning. *)
Definition index_of_4_byte_phandles (root : fdt.Node) : Prop :=
  forall m, _build_phandle_map root = Ok m ->
    forall k, m !! k = last_declaring declared_phandle_4 (walk (py "/") root) k.

(** The path-joining rule in the specification's words. *)
Definition joined (p child_name : str) : str :=
  if bool_decide (p = py "/") then py "/" ++ child_name
  else p ++ py "/" ++ child_name.

(** [s] holds two slashes in a row. *)
Fixpoint has_double_slash (s : str) : bool :=
  match s with
  | a :: ((b :: _) as r) =>
      ((a =? slash) && (b =? slash)) || has_double_slash r
  | _ => false
  end.

(** A [NodeDict] without its [address]: the [FdtNode] of the same shape. *)
Fixpoint forget (d : NodeDict.t) : FdtNode :=
  match d with
  | NodeDict.mk path name _ props children =>
      mkFdtNode name path props (forget <$> children)
  end.

(** Every record of a tree of records, the root first. *)
Fixpoint records (d : NodeDict.t) : list NodeDict.t :=
  match d with
  | NodeDict.mk _ _ _ _ children => d :: flat_map records children
  end.

(** The records of a tree carry the paths the joining rule gives the
    nodes of the blob, child by child and in order. *)
Inductive laid_out : str -> fdt.Node -> NodeDict.t -> Prop :=
| laid_out_node p ps subs d :
    NodeDict.path d = p ->
    Forall2 (fun sub c => laid_out (joined p sub.1) sub.2 c)
            subs (NodeDict.children d) ->
    laid_out p (fdt.mkNode ps subs) d.

(** What is claimed of the two traversals of a parser: they return, they
    agree node for node, the paths follow the joining rule, and no path
    holds a double slash. *)
Definition traversals_consistent (self : DtbParser) : Prop :=
  exists d,
    traverse_tree self = Ok [d]
    /\ get_root_node self = Ok (forget d)
    /\ laid_out (py "/") (_dtb self) d
    /\ Forall (fun r => has_double_slash (NodeDict.path r) = false)
              (records d).

(** A path the walk can extend without doubling a slash: the root, or a
    path that does not end with one. *)
Definition tidy (p : str) : Prop :=
  has_double_slash p = false
  /\ (p = py "/" \/ (p ≠ [] /\ last p ≠ Some slash)).

(** Every child name in the blob is non-empty and holds no slash. *)
Inductive well_named : fdt.Node -> Prop :=
| well_named_node ps subs :
    Forall (fun sub => (sub.1 ≠ []) /\ (slash ∉ sub.1) /\ well_named sub.2)
           subs ->
    well_named (fdt.mkNode ps subs).

Section Around.
Context {A : Type} `{EqDecision A}.

(** The part of [s] before the first [sep] (all of it when there is
    none) and the part after it (nothing when there is none). *)
Fixpoint before (sep : A) (s : list A) : list A :=
  match s with
  | [] => []
  | x :: r => if bool_decide (x = sep) then [] else x :: before sep r
  end.

Fixpoint after (sep : A) (s : list A) : list A :=
  match s with
  | [] => []
  | x :: r => if bool_decide (x = sep) then r else after sep r
  end.

End Around.

(** The address of a record as claimed: what follows the first ['@']. *)
Definition address_after_first_at (r : NodeDict.t) : Prop :=
  NodeDict.address r =
    if contains at_sign (NodeDict.name r)
    then Some (after at_sign (NodeDict.name r))
    else None.

Definition addresses_after_first_at (self : DtbParser) : Prop :=
  forall d, traverse_tree self = Ok [d] ->
    Forall address_after_first_at (records d).

(** The address of a record as computed: what lies between the first
    ['@'] and the next one, or the end of the name. *)
Definition address_between_ats (r : NodeDict.t) : Prop :=
  NodeDict.address r =
    if contains at_sign (NodeDict.name r)
    then Some (before at_sign (after at_sign (NodeDict.name r)))
    else None.

(** ** Sample blobs *)

(** The board of the specification's end-to-end example: a root with a
    [compatible] string and one child [uart@1000] that declares phandle 5. *)
Definition board : fdt.Node :=
  fdt.mkNode
    [(py "compatible",
      fdt.mkProperty ["a"; "c"; "m"; "e"; ","; "b"; "o"; "a"; "r"; "d"; x00]%byte
                     true)]
    [(py "uart@1000",
      fdt.mkNode
        [(py "phandle", fdt.mkProperty [x00; x00; x00; x05] true);
         (py "reg",
          fdt.mkProperty [x00; x00; x10; x00; x00; x00; x01; x00] true)]
        [])].

(** The parser [__init__] builds from [board]. *)
Definition board_parser : DtbParser :=
  mkDtbParser board (<[5 := py "/uart@1000"]> ∅).

(** Sample property values. *)
Definition abc_nul : fdt.Property :=
  fdt.mkProperty ["a"; "b"; "c"; x00]%byte true.

Definition two_cells : fdt.Property :=
  fdt.mkProperty
    ["001"; "002"; "003"; "004"; "005"; "006"; "007"; "008"]%byte true.

(** The root declares phandle 5 on four bytes; its child [b], visited
    later, has a one-byte [phandle] property of the same value. *)
Definition short_phandle : fdt.Node :=
  fdt.mkNode
    [(py "phandle", fdt.mkProperty [x00; x00; x00; x05] true)]
    [(py "b", fdt.mkNode [(py "phandle", fdt.mkProperty [x05] true)] [])].

(** A node [a] with a child of empty name, itself with a child [x]. *)
Definition empty_name : fdt.Node :=
  fdt.mkNode []
    [(py "a", fdt.mkNode [] [(py "", fdt.mkNode [] [(py "x", fdt.mkNode [] [])])])].

(** A child whose name holds two ['@']. *)
Definition two_ats : fdt.Node :=
  fdt.mkNode [] [(py "a@b@c", fdt.mkNode [] [])].

(** Discharges a decidable side condition on a concrete input. *)
Ltac by_decide := apply (bool_decide_unpack _); vm_compute; exact I.

(** ** Vocabulary of the further statements *)

(** Byte strings laid out as a devicetree string list: each one followed
    by a null byte. *)
Definition nul_terminated (segs : list bytes) : bytes :=
  flat_map (fun seg => seg ++ [x00]) segs.

(** The value the decoder returns for a property, if it returns. *)
Definition decoded (p : fdt.Property) : option PropertyValue :=
  match _decode_property p with
  | Ok v => Some v
  | Raise _ => None
  end.

(** A Unicode scalar value other than U+0000. *)
Definition scalar_not_nul (c : Z) : Prop :=
  0 < c <= 0x10FFFF /\ ~ (0xD800 <= c <= 0xDFFF).

(** What a decoded value tells about the data it comes from. *)
Definition explains (d : bytes) (v : PropertyValue) : Prop :=
  match v with
  | PStr s =>
      string_like d /\ exists seg, kept_segments d = [seg] /\ s = utf8_ignore seg
  | PStrList l =>
      string_like d /\ l = utf8_ignore <$> kept_segments d
      /\ (2 <= length l)%nat
  | PInt c =>
      ~ string_like d /\ length d = 4%nat /\ cells_of d = [c]
  | PIntList l =>
      ~ string_like d /\ cell_like d /\ l = cells_of d
      /\ (2 <= length l)%nat /\ length d = (4 * length l)%nat
  | PBytes b =>
      b = d /\ ~ string_like d /\ ~ cell_like d
  end.

(** The last property of a node under the name [k], the one a later
    assignment to [props[k]] leaves in the dictionary. *)
Definition last_named (k : str) (ps : list (str * fdt.Property))
  : option (str * fdt.Property) :=
  last (filter (fun kv => kv.1 = k) ps).


(** The phandles declared in a blob, in the order of the walk and with
    repetitions. *)
Definition declared_phandles (root : fdt.Node) : list Z :=
  omap (fun pn : str * fdt.Node => declared_phandle pn.2)
       (walk (py "/") root).





(** * Properties *)

(** ** Sequences *)

Section SequenceFacts.
Context {A : Type} `{EqDecision A}.
Implicit Types (sep x : A) (s seg : list A) (segs : list (list A)).

Lemma contains_elem_of sep s : contains sep s = true <-> sep ∈ s.
Proof.
  unfold contains. rewrite existsb_exists. split.
  - intros (x & Hin & Hx). apply bool_decide_eq_true in Hx. subst.
    by apply list_elem_of_In.
  - intros Hin. exists sep. split; [by apply list_elem_of_In|].
    by apply bool_decide_eq_true.
Qed.

Lemma contains_false sep s : contains sep s = false <-> sep ∉ s.
Proof.
  rewrite <- contains_elem_of. destruct (contains sep s); split; done.
Qed.

Lemma split_cons_sep sep s : split sep (sep :: s) = [] :: split sep s.
Proof. simpl. by rewrite bool_decide_eq_true_2. Qed.

Lemma split_not_nil sep s : split sep s ≠ [].
Proof.
  destruct s as [|x r]; simpl; [done|].
  case_bool_decide; [done|]. by destruct (split sep r).
Qed.

Lemma split_cons_other sep x s :
  x ≠ sep ->
  exists seg segs, split sep s = seg :: segs
                   /\ split sep (x :: s) = (x :: seg) :: segs.
Proof.
  intros Hx. simpl. rewrite bool_decide_eq_false_2 by done.
  destruct (split sep s) as [|seg segs] eqn:E.
  - by destruct (split_not_nil sep s).
  - by exists seg, segs.
Qed.

(** Splitting loses nothing: joining the segments gives the input back. *)
Lemma join_split sep s : join sep (split sep s) = s.
Proof.
  induction s as [|x r IH]; [done|].
  destruct (decide (x = sep)) as [->|Hx].
  - rewrite split_cons_sep. simpl.
    pose proof (split_not_nil sep r) as Hne.
    destruct (split sep r) as [|seg segs]; [done|].
    by rewrite IH.
  - destruct (split_cons_other sep x r Hx) as (seg & segs & E1 & E2).
    rewrite E2. rewrite E1 in IH. simpl in *.
    destruct segs; by rewrite <- IH.
Qed.

(** No segment holds the separator. *)
Lemma split_no_sep sep s : Forall (fun seg => sep ∉ seg) (split sep s).
Proof.
  induction s as [|x r IH]; simpl.
  - repeat constructor. apply not_elem_of_nil.
  - case_bool_decide as Hx.
    + constructor; [apply not_elem_of_nil | done].
    + pose proof (split_not_nil sep r) as Hne.
      destruct (split sep r) as [|seg segs]; [done|].
      inversion_clear IH as [|? ? Hseg Hsegs]. constructor; [|done].
      rewrite not_elem_of_cons. split; [congruence | done].
Qed.


(** The elements other than the separator all survive, in order. *)
Lemma concat_split sep s :
  concat (split sep s) = filter (fun x => x ≠ sep) s.
Proof.
  induction s as [|x r IH]; [done|]. simpl. rewrite filter_cons.
  case_bool_decide as Hx.
  - rewrite decide_False by (intros Hn; by apply Hn). simpl. done.
  - rewrite decide_True by done.
    pose proof (split_not_nil sep r) as Hne.
    destruct (split sep r) as [|seg segs]; [done|].
    simpl in *. by rewrite IH.
Qed.

Lemma concat_filter_nonempty segs :
  concat (filter (fun seg => seg ≠ []) segs) = concat segs.
Proof.
  induction segs as [|seg segs IH]; [done|].
  rewrite filter_cons. destruct (decide (seg ≠ [])) as [Hn|Hn]; simpl.
  - by rewrite IH.
  - apply dec_stable in Hn. subst. done.
Qed.

Lemma getitem_0 x l : getitem (x :: l) 0 = Ok x.
Proof.
  unfold getitem. simpl length.
  replace (0 <? 0) with false by done.
  rewrite (proj2 (Z.leb_le 0 0)) by lia.
  rewrite (proj2 (Z.ltb_lt 0 _)) by lia. done.
Qed.

Lemma getitem_last l :
  l ≠ [] -> exists x, getitem l (-1) = Ok x /\ last l = Some x.
Proof.
  intros Hl. destruct (last l) as [x|] eqn:E.
  2: { apply last_None in E. done. }
  exists x. split; [|done]. unfold getitem.
  assert (0 < length l)%nat by (destruct l; simpl; [done | lia]).
  replace (-1 <? 0) with true by done.
  rewrite (proj2 (Z.leb_le 0 _)) by lia.
  rewrite (proj2 (Z.ltb_lt _ _)) by lia. simpl.
  rewrite last_lookup in E.
  replace (Z.to_nat (-1 + Z.of_nat (length l))) with (pred (length l)) by lia.
  by rewrite E.
Qed.

End SequenceFacts.

(** ** The property decoder *)

Lemma byte_val_range b : 0 <= byte_val b < 256.
Proof.
  unfold byte_val. pose proof (Byte.to_N_bounded b) as Hb. lia.
Qed.

Lemma byte_val_zero b : byte_val b = 0 <-> b = x00.
Proof.
  split; [|by intros ->].
  unfold byte_val. intros Hz.
  assert (Byte.to_N b = Byte.to_N x00) as Hn by (simpl; lia).
  apply (f_equal Byte.of_N) in Hn. rewrite !Byte.of_to_N in Hn.
  congruence.
Qed.

Lemma all_zero_spec (d : bytes) :
  forallb (fun b => byte_val b =? 0) d = true <-> Forall (fun b => b = x00) d.
Proof.
  rewrite forallb_forall, Forall_forall. split; intros Hall b Hb.
  - apply byte_val_zero, Z.eqb_eq, Hall. by apply list_elem_of_In.
  - apply Z.eqb_eq, byte_val_zero, Hall. by apply list_elem_of_In.
Qed.

Lemma string_test_true (d : bytes) :
  contains x00 d && negb (forallb (fun b => byte_val b =? 0) d) = true
  <-> string_like d.
Proof.
  unfold string_like.
  rewrite andb_true_iff, negb_true_iff, contains_elem_of.
  rewrite <- all_zero_spec.
  destruct (forallb _ d); split; intros [? ?]; split; done.
Qed.

Lemma string_test_false (d : bytes) :
  contains x00 d && negb (forallb (fun b => byte_val b =? 0) d) = false
  <-> ~ string_like d.
Proof.
  rewrite <- string_test_true. by destruct (_ && _).
Qed.

Lemma cell_test_true (d : bytes) :
  bool_decide (Z.of_nat (length d) mod 4 = 0)
  && bool_decide (Z.of_nat (length d) > 0) = true
  <-> cell_like d.
Proof.
  unfold cell_like.
  rewrite andb_true_iff, !bool_decide_eq_true.
  destruct d; simpl length; split; intros [? ?]; split; try done; lia.
Qed.

Lemma cell_test_false (d : bytes) :
  bool_decide (Z.of_nat (length d) mod 4 = 0)
  && bool_decide (Z.of_nat (length d) > 0) = false
  <-> ~ cell_like d.
Proof.
  rewrite <- cell_test_true. by destruct (_ && _).
Qed.

(** A byte other than the separator lies in some segment, so data that
    is not all zero keeps at least one segment. *)
Lemma kept_segments_not_nil (d : bytes) :
  ~ Forall (fun b => b = x00) d -> kept_segments d ≠ [].
Proof.
  intros Hnz Hnil. apply Hnz.
  assert (filter (fun x => x ≠ x00) d = []) as Hf.
  { rewrite <- concat_split, <- concat_filter_nonempty.
    fold (kept_segments d). by rewrite Hnil. }
  apply Forall_forall. intros b Hb.
  destruct (decide (b = x00)) as [|Hne]; [done|].
  assert (b ∈ filter (fun x => x ≠ x00) d) as Hin
    by (apply list_elem_of_filter; done).
  rewrite Hf in Hin. by apply elem_of_nil in Hin.
Qed.

Lemma kept_segments_spec (d : bytes) :
  Forall (fun seg => seg ≠ [] /\ x00 ∉ seg) (kept_segments d).
Proof.
  apply Forall_forall. intros seg Hseg.
  apply list_elem_of_filter in Hseg as [Hne Hin]. split; [done|].
  pose proof (split_no_sep x00 d) as Hall.
  rewrite Forall_forall in Hall. by apply Hall.
Qed.

(** What the decoder does once the string rule fires. *)
Lemma decode_string_like (p : fdt.Property) :
  string_like (fdt.data p) ->
  _decode_property p =
    match utf8_ignore <$> kept_segments (fdt.data p) with
    | [s] => Ok (PStr s)
    | l => Ok (PStrList l)
    end.
Proof.
  intros Hs. unfold _decode_property. cbv zeta.
  rewrite (proj2 (string_test_true _) Hs).
  fold (kept_segments (fdt.data p)).
  destruct (utf8_ignore <$> kept_segments (fdt.data p)) as [|s [|s' l]];
    simpl length.
  - by rewrite bool_decide_eq_false_2.
  - rewrite bool_decide_eq_true_2 by done. by rewrite getitem_0.
  - by rewrite bool_decide_eq_false_2.
Qed.

Lemma decode_not_string_like (p : fdt.Property) :
  ~ string_like (fdt.data p) ->
  _decode_property p =
    let data := fdt.data p in
    if bool_decide (Z.of_nat (length data) mod 4 = 0)
       && bool_decide (Z.of_nat (length data) > 0)
    then
      let cells :=
        (fun i => from_bytes_big (slice data i (i + 4)))
          <$> range 0 (Z.of_nat (length data)) 4 in
      if bool_decide (length cells = 1%nat)
      then getitem cells 0 ≫= fun c => Ok (PInt c)
      else Ok (PIntList cells)
    else Ok (PBytes data).
Proof.
  intros Hs. unfold _decode_property. cbv zeta.
  by rewrite (proj2 (string_test_false _) Hs).
Qed.

Lemma decode_raw (p : fdt.Property) :
  ~ string_like (fdt.data p) -> ~ cell_like (fdt.data p) ->
  _decode_property p = Ok (PBytes (fdt.data p)).
Proof.
  intros Hs Hc. rewrite decode_not_string_like by done. cbv zeta.
  by rewrite (proj2 (cell_test_false _) Hc).
Qed.

(** The decoder never raises. *)
Lemma decode_returns (p : fdt.Property) : returns (_decode_property p).
Proof.
  destruct (decide (string_like (fdt.data p))) as [Hs|Hs].
  - rewrite decode_string_like by done.
    destruct (utf8_ignore <$> _) as [|s [|s' l]]; by eexists.
  - rewrite decode_not_string_like by done. cbv zeta.
    destruct (_ && _); [|by eexists].
    destruct (_ <$> range _ _ _) as [|c [|c' l]] eqn:E; simpl length.
    + rewrite bool_decide_eq_false_2 by done. by eexists.
    + rewrite bool_decide_eq_true_2 by done. rewrite getitem_0. by eexists.
    + rewrite bool_decide_eq_false_2 by done. by eexists.
Qed.

Lemma decode_string_like_strings (p : fdt.Property) :
  string_like (fdt.data p) ->
  exists v, _decode_property p = Ok v /\ is_text v
            /\ strings_of v = utf8_ignore <$> kept_segments (fdt.data p).
Proof.
  intros Hs. rewrite decode_string_like by done.
  destruct (utf8_ignore <$> _) as [|s [|s' l]]; by eexists.
Qed.

Lemma utf8_ignore_undecodable (seg : bytes) :
  Forall starts_no_text seg -> utf8_ignore seg = [].
Proof.
  induction 1 as [|b seg Hb _ IH]; [done|].
  cbn [utf8_ignore]. cbv zeta. destruct Hb as [[Hlo Hhi]|Hhi].
  - rewrite (proj2 (Z.ltb_ge _ _)) by lia.
    by rewrite (proj2 (Z.ltb_lt _ _)) by lia.
  - by rewrite !(proj2 (Z.ltb_ge _ _)) by lia.
Qed.

Lemma fmap_utf8_ignore_undecodable (segs : list bytes) :
  Forall (Forall starts_no_text) segs ->
  utf8_ignore <$> segs = replicate (length segs) [].
Proof.
  induction 1 as [|seg segs Hseg _ IH]; [done|].
  rewrite fmap_cons. simpl. f_equal; [|done].
  by apply utf8_ignore_undecodable.
Qed.

Lemma kept_segments_bytes (d seg : bytes) (b : byte) :
  seg ∈ kept_segments d -> b ∈ seg -> b ∈ d /\ b ≠ x00.
Proof.
  intros Hseg Hb.
  assert (b ∈ concat (kept_segments d)) as Hin.
  { apply list_elem_of_In, in_concat. exists seg.
    by rewrite <- !list_elem_of_In. }
  unfold kept_segments in Hin.
  rewrite concat_filter_nonempty, concat_split in Hin.
  apply list_elem_of_filter in Hin. tauto.
Qed.

(** ** Cells *)

Lemma slice_nat {A} (l : list A) (i j : nat) :
  (j <= length l)%nat ->
  slice l (Z.of_nat i) (Z.of_nat j) = drop i (take j l).
Proof.
  intros Hj. unfold slice.
  rewrite !(proj2 (Z.ltb_ge _ _)) by lia.
  destruct (decide (i <= length l)%nat) as [Hi|Hi].
  - by rewrite !Z.min_l, !Nat2Z.id by lia.
  - rewrite Z.min_r, Z.min_l, !Nat2Z.id by lia.
    rewrite !drop_ge; [done | rewrite length_take; lia | rewrite length_take; lia].
Qed.

Lemma range_by_4 (k : nat) :
  range 0 (Z.of_nat (4 * k)) 4 = (fun j => Z.of_nat (4 * j)) <$> seq 0 k.
Proof.
  unfold range.
  replace (Z.to_nat ((Z.of_nat (4 * k) - 0 + 4 - 1) / 4)) with k.
  - apply list_fmap_ext. intros _ j _. lia.
  - replace (Z.of_nat (4 * k) - 0 + 4 - 1) with (3 + Z.of_nat k * 4) by lia.
    rewrite Z.div_add by lia. replace (3 / 4) with 0 by done. lia.
Qed.

Lemma from_bytes_big_4 (a b c e : byte) :
  from_bytes_big [a; b; c; e]
  = byte_val a * 2 ^ 24 + byte_val b * 2 ^ 16 + byte_val c * 2 ^ 8 + byte_val e.
Proof. unfold from_bytes_big. simpl fold_left. lia. Qed.

Lemma chunks_cells (k : nat) (d : bytes) :
  length d = (4 * k)%nat ->
  (fun j => from_bytes_big (drop (4 * j) (take (4 * j + 4) d))) <$> seq 0 k
  = cells_of d.
Proof.
  revert d. induction k as [|k IH]; intros d Hd.
  - by destruct d.
  - destruct d as [|a [|b [|c [|e r]]]]; simpl in Hd; try lia.
    cbn [seq]. rewrite fmap_cons, <- fmap_S_seq, <- list_fmap_compose.
    cbn [cells_of]. f_equal.
    + by rewrite <- from_bytes_big_4.
    + rewrite <- (IH r) by lia. apply list_fmap_ext. intros _ j _.
      unfold compose.
      replace (4 * S j)%nat with (S (S (S (S (4 * j))))) by lia.
      done.
Qed.

(** The loop over [range(0, len(data), 4)] reads exactly the chunks. *)
Lemma cells_loop (d : bytes) :
  Z.of_nat (length d) mod 4 = 0 ->
  (fun i => from_bytes_big (slice d i (i + 4)))
    <$> range 0 (Z.of_nat (length d)) 4 = cells_of d.
Proof.
  intros Hm.
  assert (exists k, length d = (4 * k)%nat) as [k Hk].
  { exists (Z.to_nat (Z.of_nat (length d) / 4)).
    pose proof (Z.div_mod (Z.of_nat (length d)) 4). lia. }
  rewrite Hk, range_by_4, <- list_fmap_compose, <- (chunks_cells k d Hk).
  apply list_fmap_ext. intros i j Hj. unfold compose.
  apply lookup_seq in Hj as [-> Hj].
  simpl Nat.add.
  replace (Z.of_nat (4 * i) + 4) with (Z.of_nat (4 * i + 4)) by lia.
  rewrite slice_nat by lia. done.
Qed.

Lemma length_cells_of (k : nat) (d : bytes) :
  length d = (4 * k)%nat -> length (cells_of d) = k.
Proof.
  revert d. induction k as [|k IH]; intros d Hd.
  - by destruct d.
  - destruct d as [|a [|b [|c [|e r]]]]; simpl in Hd; try lia.
    cbn [cells_of length]. f_equal. apply IH. lia.
Qed.

Lemma cells_of_range (d : bytes) : Forall (fun c => 0 <= c < 2 ^ 32) (cells_of d).
Proof.
  assert (forall n (d : bytes), (length d <= n)%nat ->
            Forall (fun c => 0 <= c < 2 ^ 32) (cells_of d)) as Hgen.
  { clear d. induction n as [|n IH]; intros d Hd.
    - destruct d; [constructor | simpl in Hd; lia].
    - destruct d as [|a [|b [|c [|e r]]]]; try constructor.
      + pose proof (byte_val_range a). pose proof (byte_val_range b).
        pose proof (byte_val_range c). pose proof (byte_val_range e). lia.
      + apply IH. simpl in Hd. lia. }
  by apply (Hgen (length d)).
Qed.

Lemma to_bytes_big_4 (a b c e : Z) :
  0 <= a < 256 -> 0 <= b < 256 -> 0 <= c < 256 -> 0 <= e < 256 ->
  to_bytes_big 4 (a * 2 ^ 24 + b * 2 ^ 16 + c * 2 ^ 8 + e) = [a; b; c; e].
Proof.
  intros Ha Hb Hc He. cbn [to_bytes_big].
  change (256 ^ Z.of_nat 3) with 16777216.
  change (256 ^ Z.of_nat 2) with 65536.
  change (256 ^ Z.of_nat 1) with 256.
  change (256 ^ Z.of_nat 0) with 1.
  change (2 ^ 24) with 16777216. change (2 ^ 16) with 65536.
  change (2 ^ 8) with 256.
  repeat f_equal; Z.div_mod_to_equations; lia.
Qed.

(** Writing the cells back as big-endian words rebuilds the data. *)
Lemma cells_of_roundtrip (k : nat) (d : bytes) :
  length d = (4 * k)%nat ->
  concat (to_bytes_big 4 <$> cells_of d) = byte_val <$> d.
Proof.
  revert d. induction k as [|k IH]; intros d Hd.
  - by destruct d.
  - destruct d as [|a [|b [|c [|e r]]]]; simpl in Hd; try lia.
    cbn [cells_of fmap list_fmap concat].
    rewrite to_bytes_big_4 by apply byte_val_range.
    change (list_fmap ?f ?l) with (f <$> l).
    rewrite IH by lia. done.
Qed.

(** ** The decoder's three rules *)

(** C1. Data that holds a null byte and is not all zero always decodes to
    a single string or to a sequence of strings, whatever its length: the
    string rule is tried before the cell rule, so a length that is a
    multiple of 4 changes nothing. *)
Theorem decode_string_rule_first (p : fdt.Property) :
  x00 ∈ fdt.data p ->
  ~ Forall (fun b => b = x00) (fdt.data p) ->
  (exists s, _decode_property p = Ok (PStr s))
  \/ (exists l, _decode_property p = Ok (PStrList l)).
Proof.
  intros Hnull Hnz.
  rewrite decode_string_like by (by split).
  destruct (utf8_ignore <$> _) as [|s [|s' l]]; eauto.
Qed.

Lemma decode_string_rule_first_witness :
  length (fdt.data abc_nul) = 4%nat
  /\ ((exists s, _decode_property abc_nul = Ok (PStr s))
      \/ (exists l, _decode_property abc_nul = Ok (PStrList l))).
Proof.
  split; [reflexivity|].
  apply (decode_string_rule_first abc_nul); by_decide.
Defined.

(** C2. Non-empty data whose length is a multiple of 4 and that holds no
    null byte decodes to one unsigned 32-bit integer when it has 4 bytes
    and to the sequence of them when it has more; the integers are the
    big-endian readings of the consecutive 4-byte chunks, from which the
    data can be rebuilt. *)
Theorem decode_cells (p : fdt.Property) :
  fdt.data p ≠ [] ->
  Z.of_nat (length (fdt.data p)) mod 4 = 0 ->
  x00 ∉ fdt.data p ->
  let cells := cells_of (fdt.data p) in
  (length (fdt.data p) = 4%nat ->
     exists c, cells = [c] /\ _decode_property p = Ok (PInt c))
  /\ ((length (fdt.data p) > 4)%nat ->
        _decode_property p = Ok (PIntList cells))
  /\ Forall (fun c => 0 <= c < 2 ^ 32) cells
  /\ concat (to_bytes_big 4 <$> cells) = byte_val <$> fdt.data p.
Proof.
  intros Hne Hm Hnull cells.
  assert (exists k, length (fdt.data p) = (4 * k)%nat) as [k Hk].
  { exists (Z.to_nat (Z.of_nat (length (fdt.data p)) / 4)).
    pose proof (Z.div_mod (Z.of_nat (length (fdt.data p))) 4). lia. }
  assert (_decode_property p =
            if bool_decide (length cells = 1%nat)
            then getitem cells 0 ≫= fun c => Ok (PInt c)
            else Ok (PIntList cells)) as Hdec.
  { rewrite decode_not_string_like by (intros [? _]; done). cbv zeta.
    rewrite (proj2 (cell_test_true _)) by done.
    by rewrite cells_loop. }
  pose proof (length_cells_of k _ Hk) as Hlen. fold cells in Hlen.
  repeat split.
  - intros H4. assert (k = 1%nat) as -> by lia.
    destruct cells as [|c [|c' l]]; try done.
    exists c. split; [done|]. rewrite Hdec.
    rewrite bool_decide_eq_true_2 by done. by rewrite getitem_0.
  - intros H4. rewrite Hdec. rewrite bool_decide_eq_false_2; [done | lia].
  - apply cells_of_range.
  - by apply (cells_of_roundtrip k).
Qed.

Lemma decode_cells_witness :
  _decode_property two_cells = Ok (PIntList [0x01020304; 0x05060708]).
Proof.
  refine (proj1 (proj2 (decode_cells two_cells _ _ _)) _);
    [by_decide | reflexivity | by_decide | simpl; lia].
Defined.

(** C3. The decoder is a total function: every byte sequence, the empty
    one included, gives exactly one value and no exception; data that
    neither rule matches comes back as the same raw bytes. *)
Theorem decode_total_raw_fallback (p : fdt.Property) :
  (exists v, _decode_property p = Ok v
             /\ forall v', _decode_property p = Ok v' -> v' = v)
  /\ (~ string_like (fdt.data p) -> ~ cell_like (fdt.data p) ->
      _decode_property p = Ok (PBytes (fdt.data p))).
Proof.
  split.
  - destruct (decode_returns p) as [v Hv]. exists v. split; [done|].
    intros v' Hv'. congruence.
  - apply decode_raw.
Qed.

Lemma decode_total_raw_fallback_witness :
  _decode_property (fdt.mkProperty [] true) = Ok (PBytes [])
  /\ _decode_property (fdt.mkProperty ["a"; x00; "b"; x00; x00]%byte true)
     = Ok (PStrList [py "a"; py "b"])
  /\ _decode_property (fdt.mkProperty [x00; x00; x00]%byte true)
     = Ok (PBytes [x00; x00; x00]%byte).
Proof.
  split; [|split].
  - apply (proj2 (decode_total_raw_fallback (fdt.mkProperty [] true)));
      intros [H1 H2]; [by inversion H1 | done].
  - reflexivity.
  - apply (proj2 (decode_total_raw_fallback
                    (fdt.mkProperty [x00; x00; x00]%byte true)));
      by_decide.
Defined.

(** C6, as stated, fails: a lone null byte is all zero, so the string rule
    does not fire and the byte comes back as raw bytes, not as a sequence
    of zero strings. *)
Lemma lone_null_is_raw_bytes :
  _decode_property (fdt.mkProperty [x00] true) = Ok (PBytes [x00])
  /\ _decode_property (fdt.mkProperty [x00] true) ≠ Ok (PStrList []).
Proof. split; [reflexivity | discriminate]. Qed.

(** C6, amended. String-like data always keeps at least one segment, so
    the decoder never returns a sequence of zero strings; a lone null
    byte decodes to itself as raw bytes. *)
Theorem decode_never_empty_string_list (p : fdt.Property) :
  (string_like (fdt.data p) -> kept_segments (fdt.data p) ≠ [])
  /\ _decode_property p ≠ Ok (PStrList [])
  /\ (fdt.data p = [x00] -> _decode_property p = Ok (PBytes [x00])).
Proof.
  split; [|split].
  - intros [_ Hnz]. by apply kept_segments_not_nil.
  - destruct (decide (string_like (fdt.data p))) as [Hs|Hs].
    + destruct (decode_string_like_strings p Hs) as (v & -> & _ & Hv).
      intros [= ->]. simpl in Hv. symmetry in Hv.
      apply fmap_nil_inv in Hv. destruct Hs as [_ Hnz].
      by apply (kept_segments_not_nil _ Hnz).
    + rewrite decode_not_string_like by done. cbv zeta.
      destruct (_ && _); [|done].
      destruct (bool_decide _); [|done].
      by destruct (getitem _ 0).
  - intros Hd. rewrite decode_raw; rewrite Hd.
    + done.
    + intros [_ Hnz]. apply Hnz. by repeat constructor.
    + intros [_ Hm]. done.
Qed.

Lemma decode_never_empty_string_list_witness :
  kept_segments ["a"; x00]%byte ≠ []
  /\ _decode_property (fdt.mkProperty [x00] false) = Ok (PBytes [x00]).
Proof.
  split.
  - apply (proj1 (decode_never_empty_string_list
                    (fdt.mkProperty ["a"; x00]%byte true))). by_decide.
  - by apply (proj2 (proj2 (decode_never_empty_string_list
                              (fdt.mkProperty [x00] false)))).
Defined.

(** C10. The empty segments are dropped before decoding, not after: the
    strings returned are the decodings of the non-empty raw segments, one
    for one, so a segment of undecodable bytes yields an empty string.
    Data made of such segments decodes to the empty string or to a
    sequence of empty strings. *)
Theorem decode_keeps_undecodable_segments (p : fdt.Property) :
  string_like (fdt.data p) ->
  exists v,
    _decode_property p = Ok v
    /\ strings_of v = utf8_ignore <$> kept_segments (fdt.data p)
    /\ (Forall (fun b => b = x00 \/ starts_no_text b) (fdt.data p) ->
        v = PStr []
        \/ exists n, (2 <= n)%nat /\ v = PStrList (replicate n [])).
Proof.
  intros Hs. rewrite decode_string_like by done.
  pose proof (kept_segments_not_nil _ (proj2 Hs)) as Hne.
  assert (Forall (fun b => b = x00 \/ starts_no_text b) (fdt.data p) ->
          utf8_ignore <$> kept_segments (fdt.data p)
          = replicate (length (kept_segments (fdt.data p))) []) as Hrep.
  { intros Hall.
    assert (Forall (Forall starts_no_text) (kept_segments (fdt.data p)))
      as Hsegs.
    { apply Forall_forall. intros seg Hseg. apply Forall_forall.
      intros b Hb. destruct (kept_segments_bytes _ _ _ Hseg Hb) as [Hin Hb0].
      rewrite Forall_forall in Hall. by destruct (Hall b Hin). }
    by apply fmap_utf8_ignore_undecodable. }
  destruct (kept_segments (fdt.data p)) as [|s1 [|s2 segs]]; [done| |].
  - eexists. split; [done|]. split; [done|].
    intros Hall. left. specialize (Hrep Hall). simpl in Hrep. congruence.
  - eexists. split; [done|]. split; [done|].
    intros Hall. right. exists (length (s1 :: s2 :: segs)).
    split; [simpl; lia|]. by rewrite <- (Hrep Hall).
Qed.

Lemma decode_keeps_undecodable_segments_witness :
  exists v,
    _decode_property (fdt.mkProperty [xff; x00] true) = Ok v
    /\ strings_of v = [[]].
Proof.
  destruct (decode_keeps_undecodable_segments
              (fdt.mkProperty [xff; x00] true)) as (v & Hv & Hs & _).
  - by_decide.
  - exists v. split; [exact Hv | exact Hs].
Defined.

Example decode_ff_00 :
  _decode_property (fdt.mkProperty [xff; x00] true) = Ok (PStr (py "")).
Proof. reflexivity. Qed.

Example decode_ff_00_fe_00 :
  _decode_property (fdt.mkProperty [xff; x00; xfe; x00] true)
  = Ok (PStrList [py ""; py ""]).
Proof. reflexivity. Qed.

(** ** Trees *)

(** Induction on a blob, with the hypothesis for every child. *)
Lemma Node_ind' (P : fdt.Node -> Prop) :
  (forall ps subs, Forall (fun sub => P sub.2) subs -> P (fdt.mkNode ps subs)) ->
  forall n, P n.
Proof.
  intros Hnode. fix IH 1. intros [ps subs]. apply Hnode.
  induction subs as [|[cn c] rest IHrest]; constructor; [apply IH | apply IHrest].
Qed.

Lemma for_each_cons {X S} (body : X -> S -> result S) x rest s :
  for_each body (x :: rest) s = body x s ≫= for_each body rest.
Proof. reflexivity. Qed.

(** A loop that appends one computed element per item. *)
Lemma for_each_append {X Y} (f : X -> result Y)
    (body : X -> list Y -> result (list Y)) (xs : list X) (ys : list Y) :
  (forall x acc, body x acc = f x ≫= fun y => Ok (acc ++ [y])) ->
  Forall2 (fun x y => f x = Ok y) xs ys ->
  forall acc, for_each body xs acc = Ok (acc ++ ys).
Proof.
  intros Hbody. induction 1 as [|x y xs ys Hxy _ IH]; intros acc.
  - by rewrite app_nil_r.
  - rewrite for_each_cons, Hbody, Hxy. simpl.
    rewrite IH, <- app_assoc. done.
Qed.

Lemma Forall_returns_Forall2 {X Y} (f : X -> result Y) (xs : list X) :
  Forall (fun x => returns (f x)) xs ->
  exists ys, Forall2 (fun x y => f x = Ok y) xs ys.
Proof.
  induction 1 as [|x xs [y Hy] _ [ys IH]].
  - exists []. constructor.
  - exists (y :: ys). by constructor.
Qed.

(** The loop that decodes the properties of a node never raises. *)
Lemma props_loop_returns (ps : list (str * fdt.Property))
    (m : gmap str PropertyValue) :
  returns
    (for_each
       (fun '(prop_name, prop_value) props =>
          v ← _decode_property prop_value;
          Ok (<[prop_name := v]> props))
       ps m).
Proof.
  revert m. induction ps as [|[k prop] ps IH]; intros m.
  - by eexists.
  - rewrite for_each_cons.
    destruct (decode_returns prop) as [v Hv]. rewrite Hv. simpl. apply IH.
Qed.

Lemma before_after_split {A} `{EqDecision A} (sep : A) (s : list A) :
  split sep s
  = before sep s :: (if contains sep s then split sep (after sep s) else []).
Proof.
  induction s as [|x r IH]; [done|].
  cbn [split before after contains existsb].
  fold (contains sep r).
  case_bool_decide as Hx; [done|]. rewrite IH. simpl. done.
Qed.

Lemma before_no_sep {A} `{EqDecision A} (sep : A) (s : list A) :
  sep ∉ s -> before sep s = s.
Proof.
  induction s as [|x r IH]; [done|].
  rewrite not_elem_of_cons. intros [Hx Hr]. simpl.
  rewrite bool_decide_eq_false_2 by congruence. by rewrite IH.
Qed.

(** [name.split('@')[1]] is safe under the guard ['@' in name]. *)
Lemma split_at_1 (name : str) :
  contains at_sign name = true ->
  getitem (split at_sign name) 1 = Ok (before at_sign (after at_sign name)).
Proof.
  intros Hc. rewrite before_after_split, Hc.
  rewrite (before_after_split at_sign (after at_sign name)).
  unfold getitem. simpl length.
  replace (1 <? 0) with false by done.
  rewrite (proj2 (Z.leb_le 0 1)) by lia.
  rewrite (proj2 (Z.ltb_lt 1 _)) by lia. done.
Qed.

Lemma node_name_of_returns (path : str) : returns (node_name_of path).
Proof.
  unfold node_name_of. case_bool_decide; [|by eexists].
  destruct (getitem_last (split slash path)) as (x & Hx & _).
  - apply split_not_nil.
  - by exists x.
Qed.

(** One node of both traversals, given what they return on its children:
    the two share the decoded properties, the name and the path. *)
Lemma traversal_step (p : str) ps subs (cs : list NodeDict.t) (fs : list FdtNode) :
  Forall2 (fun sub c => build_node_dict (child_path_of p sub.1) sub.2 = Ok c)
          subs cs ->
  Forall2 (fun sub f =>
             _convert_fdt_node_to_custom (child_path_of p sub.1) sub.2 = Ok f)
          subs fs ->
  exists props node_name,
    node_name_of p = Ok node_name
    /\ build_node_dict p (fdt.mkNode ps subs)
       = Ok (NodeDict.mk p node_name
               (if contains at_sign node_name
                then Some (before at_sign (after at_sign node_name)) else None)
               props cs)
    /\ _convert_fdt_node_to_custom p (fdt.mkNode ps subs)
       = Ok (mkFdtNode node_name p props fs).
Proof.
  intros Hcs Hfs.
  destruct (props_loop_returns ps ∅) as [props Hprops].
  destruct (node_name_of_returns p) as [node_name Hname].
  exists props, node_name. split; [done|]. split.
  - cbn [build_node_dict]. rewrite Hprops, Hname. simpl.
    assert ((if contains at_sign node_name
             then getitem (split at_sign node_name) 1 ≫= fun a => Ok (Some a)
             else Ok None)
            = Ok (if contains at_sign node_name
                  then Some (before at_sign (after at_sign node_name)) else None)) as ->.
    { destruct (contains at_sign node_name) eqn:Hc; [|done].
      by rewrite split_at_1. }
    simpl.
    rewrite (for_each_append
               (fun sub => build_node_dict (child_path_of p sub.1) sub.2)
               _ subs cs); [done | | done].
    by intros [cn c] acc.
  - cbn [_convert_fdt_node_to_custom]. rewrite Hprops. simpl.
    rewrite (for_each_append
               (fun sub =>
                  _convert_fdt_node_to_custom (child_path_of p sub.1) sub.2)
               _ subs fs); [| | done].
    + simpl. by rewrite Hname.
    + by intros [cn c] acc.
Qed.

(** Both traversals return on every blob, and the record tree without
    its addresses is the node tree. *)
Lemma traversals_agree (n : fdt.Node) :
  forall p, exists d,
    build_node_dict p n = Ok d
    /\ _convert_fdt_node_to_custom p n = Ok (forget d).
Proof.
  induction n as [ps subs IH] using Node_ind'. intros p.
  assert (exists cs,
            Forall2 (fun sub c =>
                       build_node_dict (child_path_of p sub.1) sub.2 = Ok c
                       /\ _convert_fdt_node_to_custom
                            (child_path_of p sub.1) sub.2 = Ok (forget c))
                    subs cs) as [cs Hcs].
  { induction IH as [|[cn c] rest Hc _ [cs Hcs]].
    - exists []. constructor.
    - destruct (Hc (child_path_of p cn)) as (d & Hd1 & Hd2).
      exists (d :: cs). by constructor. }
  destruct (traversal_step p ps subs cs (forget <$> cs))
    as (props & node_name & _ & Hb & Hc).
  - eapply Forall2_impl; [exact Hcs|]. by intros sub c [? _].
  - apply Forall2_fmap_r. eapply Forall2_impl; [exact Hcs|].
    by intros sub c [_ ?].
  - eexists. split; [exact Hb|]. by rewrite Hc.
Qed.

Lemma build_node_dict_inv (p : str) ps subs (d : NodeDict.t) :
  build_node_dict p (fdt.mkNode ps subs) = Ok d ->
  exists props node_name cs,
    node_name_of p = Ok node_name
    /\ Forall2 (fun sub c =>
                  build_node_dict (child_path_of p sub.1) sub.2 = Ok c)
               subs cs
    /\ d = NodeDict.mk p node_name
             (if contains at_sign node_name
              then Some (before at_sign (after at_sign node_name)) else None)
             props cs.
Proof.
  intros Hd.
  destruct (Forall_returns_Forall2
              (fun sub => build_node_dict (child_path_of p sub.1) sub.2) subs)
    as [cs Hcs].
  { apply Forall_forall. intros sub _.
    destruct (traversals_agree sub.2 (child_path_of p sub.1)) as (c & Hc & _).
    by exists c. }
  destruct (Forall_returns_Forall2
              (fun sub =>
                 _convert_fdt_node_to_custom (child_path_of p sub.1) sub.2)
              subs)
    as [fs Hfs].
  { apply Forall_forall. intros sub _.
    destruct (traversals_agree sub.2 (child_path_of p sub.1)) as (c & _ & Hc).
    by eexists. }
  destruct (traversal_step p ps subs cs fs Hcs Hfs)
    as (props & node_name & Hname & Hb & _).
  exists props, node_name, cs. rewrite Hb in Hd. by injection Hd as <-.
Qed.

Lemma child_path_of_joined (p child_name : str) :
  child_path_of p child_name = joined p child_name.
Proof.
  unfold child_path_of, joined.
  destruct (decide (p = py "/")) as [->|Hp].
  - done.
  - by rewrite bool_decide_eq_true_2, bool_decide_eq_false_2.
Qed.

Lemma build_node_dict_laid_out (n : fdt.Node) :
  forall p d, build_node_dict p n = Ok d -> laid_out p n d.
Proof.
  induction n as [ps subs IH] using Node_ind'. intros p d Hd.
  apply build_node_dict_inv in Hd as (props & name & cs & _ & Hcs & ->).
  constructor; [done|]. simpl.
  induction Hcs as [|[cn c] d rest cs Hc _ IHcs]; [constructor|].
  inversion_clear IH as [|? ? IHc IHrest].
  constructor; [|by apply IHcs].
  simpl in *. rewrite <- child_path_of_joined. by apply IHc.
Qed.

(** The address of every record is the text between the first ['@'] of
    its name and the next. *)
Lemma build_node_dict_addresses (n : fdt.Node) :
  forall p d, build_node_dict p n = Ok d ->
    Forall address_between_ats (records d).
Proof.
  induction n as [ps subs IH] using Node_ind'. intros p d Hd.
  apply build_node_dict_inv in Hd as (props & name & cs & _ & Hcs & ->).
  cbn [records]. constructor; [done|].
  induction Hcs as [|[cn c] d rest cs Hc _ IHcs]; [constructor|].
  inversion_clear IH as [|? ? IHc IHrest].
  cbn [flat_map]. apply Forall_app. split; [|by apply IHcs].
  by apply (IHc (child_path_of p cn)).
Qed.

(** ** The phandle index *)

Lemma slice_0_take {A} (l : list A) (j : nat) :
  slice l 0 (Z.of_nat j) = take j l.
Proof.
  unfold slice. rewrite !(proj2 (Z.ltb_ge _ _)) by lia.
  rewrite Z.min_l by lia. simpl drop.
  destruct (decide (j <= length l)%nat) as [Hj|Hj].
  - by rewrite Z.min_l, Nat2Z.id by lia.
  - rewrite Z.min_r, Nat2Z.id by lia. by rewrite !take_ge by lia.
Qed.

Lemma from_bytes_big_take_4 (d : bytes) :
  0 <= from_bytes_big (take 4 d) < 2 ^ 32.
Proof.
  change (2 ^ 32) with 4294967296.
  destruct d as [|a [|b [|c [|e r]]]];
    unfold from_bytes_big; cbn [take]; rewrite ?take_0; cbn [fold_left];
    repeat match goal with
           | |- context [byte_val ?x] =>
               pose proof (byte_val_range x); generalize dependent (byte_val x);
               intros
           end; lia.
Qed.

(** What one visit does to the index. *)
Lemma visit_phandle (p : str) (node : fdt.Node) (m : gmap Z str) :
  match fdt.get_property node (py "phandle") with
  | Ok phandle_prop =>
      if fdt.truth phandle_prop then
        Ok (<[from_bytes_big (slice (fdt.data phandle_prop) 0 4) := p]> m)
      else Ok m
  | Raise KeyError => Ok m
  | Raise e => Raise e
  end
  = Ok (match declared_phandle node with
        | Some v => <[v := p]> m
        | None => m
        end).
Proof.
  unfold declared_phandle, fdt.get_property.
  destruct (List.find _ _) as [kv|]; [|done].
  destruct (fdt.truth kv.2); [|done].
  by rewrite (slice_0_take _ 4).
Qed.

Lemma last_declaring_app decl l1 l2 k :
  last_declaring decl (l1 ++ l2) k
  = match last_declaring decl l2 k with
    | Some q => Some q
    | None => last_declaring decl l1 k
    end.
Proof.
  unfold last_declaring. rewrite filter_app, last_app.
  by destruct (last (filter _ l2)).
Qed.

Lemma last_declaring_one decl (p : str) (n : fdt.Node) k :
  last_declaring decl [(p, n)] k
  = if decide (decl n = Some k) then Some p else None.
Proof.
  unfold last_declaring. rewrite filter_cons. simpl.
  by destruct (decide (decl n = Some k)).
Qed.

Lemma last_declaring_Some decl visited k (q : str) :
  last_declaring decl visited k = Some q ->
  exists n, (q, n) ∈ visited /\ decl n = Some k.
Proof.
  unfold last_declaring. intros Hq.
  destruct (last _) as [[q' n]|] eqn:E; [|done].
  injection Hq as ->. apply last_Some_elem_of in E.
  apply list_elem_of_filter in E as [Hk Hin]. by exists n.
Qed.

(** The walk never raises, and afterwards the index maps every declared
    value to the path of the last visited node that declares it; the
    other entries are as before. *)
Lemma traverse_for_phandle_spec (n : fdt.Node) :
  forall p m, exists m',
    traverse_for_phandle p n m = Ok m'
    /\ forall k, m' !! k
                 = match last_declaring declared_phandle (walk p n) k with
                   | Some q => Some q
                   | None => m !! k
                   end.
Proof.
  induction n as [ps subs IH] using Node_ind'. intros p m.
  cbn [traverse_for_phandle walk]. rewrite visit_phandle.
  set (node := fdt.mkNode ps subs).
  set (m1 := match declared_phandle node with
             | Some v => <[v := p]> m
             | None => m
             end).
  cbn [mbind result_bind].
  assert (forall k, m1 !! k
                    = match last_declaring declared_phandle [(p, node)] k with
                      | Some q => Some q
                      | None => m !! k
                      end) as Hm1.
  { intros k. rewrite last_declaring_one. subst m1.
    destruct (declared_phandle node) as [v|].
    - destruct (decide (Some v = Some k)) as [[= ->]|Hne].
      + by rewrite lookup_insert_eq.
      + rewrite lookup_insert_ne; [done | congruence].
    - by rewrite decide_False. }
  change ((p, node) :: ?l) with ([(p, node)] ++ l).
  clearbody m1.
  set (body := fun '(child_name, child_node) phandle_map =>
                 traverse_for_phandle (child_path_of p child_name)
                   child_node phandle_map).
  set (sub_walk := fun '(child_name, child_node) =>
                     walk (child_path_of p child_name) child_node).
  revert m1 Hm1. generalize [(p, node)] as seen.
  clearbody node.
  induction IH as [|[cn c] rest Hc _ IHrest]; intros seen m1 Hm1.
  - exists m1. split; [done|]. intros k. cbn [flat_map].
    by rewrite app_nil_r.
  - rewrite for_each_cons. simpl in Hc.
    change (body (cn, c) m1)
      with (traverse_for_phandle (child_path_of p cn) c m1).
    destruct (Hc (child_path_of p cn) m1) as (m2 & -> & Hm2).
    cbn [mbind result_bind].
    destruct (IHrest (seen ++ walk (child_path_of p cn) c) m2)
      as (m' & Hm' & Hlook).
    + intros k. rewrite Hm2, last_declaring_app, Hm1.
      by destruct (last_declaring _ (walk _ c) k).
    + exists m'. split; [done|]. intros k. rewrite Hlook.
      cbn [flat_map].
      change (sub_walk (cn, c)) with (walk (child_path_of p cn) c).
      by rewrite app_assoc.
Qed.

Lemma build_phandle_map_spec (root : fdt.Node) :
  exists m,
    _build_phandle_map root = Ok m
    /\ forall k,
         m !! k = last_declaring declared_phandle (walk (py "/") root) k.
Proof.
  destruct (traverse_for_phandle_spec root (py "/") ∅) as (m & Hm & Hk).
  exists m. split; [done|]. intros k. rewrite Hk, lookup_empty.
  by destruct (last_declaring _ _ k).
Qed.

Lemma declared_phandle_range (n : fdt.Node) (k : Z) :
  declared_phandle n = Some k -> 0 <= k < 2 ^ 32.
Proof.
  unfold declared_phandle. destruct (fdt.get_property _ _) as [prop|]; [|done].
  destruct (fdt.truth prop); [|done].
  intros [= <-]. apply from_bytes_big_take_4.
Qed.

Lemma last_declaring_ext decl1 decl2 visited k :
  Forall (fun pn : str * fdt.Node => decl1 pn.2 = decl2 pn.2) visited ->
  last_declaring decl1 visited k = last_declaring decl2 visited k.
Proof.
  intros Hall. unfold last_declaring. do 2 f_equal.
  induction Hall as [|pn rest Hpn _ IH]; [done|].
  rewrite !filter_cons, Hpn, IH. done.
Qed.

(** C4, as stated, fails: the one-byte [phandle] of the child is indexed
    too, and being visited last it takes the entry of the root, the only
    node whose [phandle] has four bytes. *)
Lemma short_phandle_is_indexed : ~ index_of_4_byte_phandles short_phandle.
Proof.
  intros Hclaim.
  specialize (Hclaim (<[5 := py "/b"]> (<[5 := py "/"]> ∅)) eq_refl 5).
  rewrite lookup_insert_eq in Hclaim. vm_compute in Hclaim. discriminate.
Qed.

(** C4, amended. The index built at construction holds one entry per
    value declared by a node whose [phandle] lookup gives a true property
    object, whatever the length of its data: the key is the big-endian
    number in the first four bytes (in all of them when there are fewer),
    an unsigned 32-bit integer, and the value is the path of the last node
    of the depth-first walk that declares it.  When every [phandle]
    property of the blob is true and has at least four bytes, this is the
    index of the nodes with at least four bytes of data. *)
Theorem phandle_index_last_declaring (root : fdt.Node) :
  exists m,
    _build_phandle_map root = Ok m
    /\ (forall k,
          m !! k = last_declaring declared_phandle (walk (py "/") root) k)
    /\ (forall k q, m !! k = Some q ->
          0 <= k < 2 ^ 32
          /\ exists n, (q, n) ∈ walk (py "/") root
                       /\ declared_phandle n = Some k)
    /\ (forall q n k, (q, n) ∈ walk (py "/") root ->
          declared_phandle n = Some k -> is_Some (m !! k))
    /\ (Forall (fun pn : str * fdt.Node =>
                  forall prop,
                    fdt.get_property pn.2 (py "phandle") = Ok prop ->
                    fdt.truth prop = true
                    /\ (4 <= length (fdt.data prop))%nat)
               (walk (py "/") root) ->
        index_of_4_byte_phandles root).
Proof.
  destruct (build_phandle_map_spec root) as (m & Hm & Hk).
  exists m. split; [done|]. split; [done|]. split; [|split].
  - intros k q Hq. rewrite Hk in Hq.
    apply last_declaring_Some in Hq as (n & Hin & Hn).
    split; [by apply (declared_phandle_range n) | by exists n].
  - intros q n k Hin Hn. rewrite Hk. unfold last_declaring.
    apply fmap_is_Some, last_is_Some.
    intros Hnil.
    assert ((q, n) ∈ filter (fun pn : str * fdt.Node =>
                               declared_phandle pn.2 = Some k)
                            (walk (py "/") root)) as Hf
      by (by apply list_elem_of_filter).
    rewrite Hnil in Hf. by apply elem_of_nil in Hf.
  - intros Hall m' Hm' k. rewrite Hm in Hm'. injection Hm' as <-.
    rewrite Hk. apply last_declaring_ext.
    eapply Forall_impl; [exact Hall|]. intros [q n] Hn. cbn [fst snd] in *.
    unfold declared_phandle, declared_phandle_4.
    destruct (fdt.get_property n (py "phandle")) as [prop|]; [|done].
    destruct (Hn prop eq_refl) as [-> Hlen].
    by rewrite bool_decide_eq_true_2.
Qed.

Lemma phandle_index_last_declaring_witness :
  exists m, _build_phandle_map board = Ok m
            /\ m !! 5 = Some (py "/uart@1000")
            /\ index_of_4_byte_phandles board.
Proof.
  destruct (phandle_index_last_declaring board) as (m & Hm & Hk & _ & _ & H4).
  exists m. split; [exact Hm|]. split.
  - rewrite Hk. reflexivity.
  - apply H4. unfold board. cbn [walk flat_map app].
    constructor; [|constructor; [|constructor]];
      intros prop Hprop; vm_compute in Hprop; try discriminate.
    injection Hprop as <-. split; [reflexivity | simpl; lia].
Defined.

(** ** Paths *)

Lemma has_double_slash_cons (a : Z) (s : str) :
  has_double_slash (a :: s)
  = ((a =? slash) && (match s with b :: _ => b =? slash | [] => false end))
    || has_double_slash s.
Proof. destruct s; simpl; [|done]. by rewrite andb_false_r. Qed.

Lemma no_slash_no_double_slash (s : str) :
  slash ∉ s -> has_double_slash s = false.
Proof.
  induction s as [|a s IH]; [done|].
  rewrite not_elem_of_cons. intros [Ha Hs].
  rewrite has_double_slash_cons, IH by done.
  rewrite (proj2 (Z.eqb_neq a slash)) by congruence. done.
Qed.

Lemma has_double_slash_app (a b : str) :
  has_double_slash a = false -> has_double_slash b = false ->
  last a ≠ Some slash ->
  has_double_slash (a ++ b) = false.
Proof.
  induction a as [|x a IH]; [done|]. intros Ha Hb Hlast.
  rewrite has_double_slash_cons in Ha.
  apply orb_false_iff in Ha as [Hx Ha].
  rewrite <- app_comm_cons, has_double_slash_cons.
  destruct a as [|y a].
  - simpl app. rewrite Hb, orb_false_r.
    simpl in Hlast.
    rewrite (proj2 (Z.eqb_neq x slash)) by congruence. done.
  - rewrite IH by done. simpl app. by rewrite orb_false_r.
Qed.

Lemma last_no_slash (s : str) : s ≠ [] -> slash ∉ s -> last s ≠ Some 47.
Proof.
  intros Hne Hs Hlast. apply Hs. by apply last_Some_elem_of.
Qed.

Lemma slash_name_tidy (name : str) :
  name ≠ [] -> slash ∉ name ->
  has_double_slash (slash :: name) = false /\ last (slash :: name) ≠ Some 47.
Proof.
  intros Hne Hs. split.
  - rewrite has_double_slash_cons, no_slash_no_double_slash by done.
    destruct name as [|b name]; [done|].
    apply not_elem_of_cons in Hs as [Hb _].
    rewrite (proj2 (Z.eqb_neq b slash)) by congruence. done.
  - destruct name as [|b name]; [done|].
    rewrite last_cons_cons. by apply last_no_slash.
Qed.

(** A child of a tidy path, under a name that is not empty and holds no
    slash, has a tidy path. *)
Lemma child_path_of_tidy (p name : str) :
  tidy p -> name ≠ [] -> slash ∉ name -> tidy (child_path_of p name).
Proof.
  intros [Hds Hp] Hne Hs. unfold child_path_of.
  destruct (slash_name_tidy name Hne Hs) as [Hds' Hlast'].
  change (py "/") with [slash] in *.
  case_bool_decide as Hroot.
  - destruct Hp as [->|[Hp Hlast]]; [done|].
    split.
    + by apply has_double_slash_app.
    + right. split; [by destruct p|].
      rewrite last_app. simpl app.
      destruct (last (slash :: name)) eqn:E; [done|].
      by apply last_None in E.
  - split; [done|]. right. split; [done|]. done.
Qed.

Lemma build_node_dict_tidy (n : fdt.Node) :
  well_named n ->
  forall p d, tidy p -> build_node_dict p n = Ok d ->
    Forall (fun r => has_double_slash (NodeDict.path r) = false) (records d).
Proof.
  induction n as [ps subs IH] using Node_ind'. intros Hwn p d Hp Hd.
  inversion_clear Hwn as [? ? Hsubs].
  apply build_node_dict_inv in Hd as (props & name & cs & _ & Hcs & ->).
  cbn [records]. constructor; [by destruct Hp|].
  induction Hcs as [|[cn c] d rest cs Hc _ IHcs]; [constructor|].
  inversion_clear IH as [|? ? IHc IHrest].
  inversion_clear Hsubs as [|? ? (Hne & Hs & Hwc) Hrest].
  cbn [flat_map]. apply Forall_app. split; [|by apply IHcs].
  cbn [fst snd] in *.
  apply (IHc Hwc (child_path_of p cn)); [|done].
  by apply child_path_of_tidy.
Qed.

(** ** The two traversals *)

Lemma traverse_tree_get_root_node (self : DtbParser) :
  exists d,
    traverse_tree self = Ok [d]
    /\ get_root_node self = Ok (forget d)
    /\ laid_out (py "/") (_dtb self) d
    /\ Forall address_between_ats (records d)
    /\ (well_named (_dtb self) ->
        Forall (fun r => has_double_slash (NodeDict.path r) = false)
               (records d)).
Proof.
  destruct (traversals_agree (_dtb self) (py "/")) as (d & Hd & Hf).
  exists d. unfold traverse_tree, get_root_node. rewrite Hd.
  split; [done|]. split; [done|]. split; [|split].
  - by apply build_node_dict_laid_out.
  - by apply (build_node_dict_addresses (_dtb self) (py "/")).
  - intros Hwn. apply (build_node_dict_tidy (_dtb self) Hwn (py "/")); [|done].
    split; [done | by left].
Qed.

(** C5, as stated, fails: under a node [a], a child of empty name has the
    path [/a/], and its own child [x] the path [/a//x]. *)
Lemma empty_name_doubles_slash :
  __init__ empty_name = Ok (mkDtbParser empty_name ∅)
  /\ ~ traversals_consistent (mkDtbParser empty_name ∅).
Proof.
  split; [reflexivity|].
  intros (d & Hd & _ & _ & Hds).
  vm_compute in Hd. injection Hd as <-.
  revert Hds. by_decide.
Qed.

(** C5, amended. On every blob the two traversals return and agree node
    for node on the name, the path and the decoded properties (the record
    tree without its addresses is the node tree); the root is at [/] and
    a child of the node at [p] is at [/name] when [p] is [/] and at
    [p/name] otherwise.  No path holds a double slash provided no node
    name of the blob is empty or holds a slash. *)
Theorem traversals_consistent_well_named (self : DtbParser) :
  (exists d,
     traverse_tree self = Ok [d]
     /\ get_root_node self = Ok (forget d)
     /\ laid_out (py "/") (_dtb self) d)
  /\ (well_named (_dtb self) -> traversals_consistent self).
Proof.
  destruct (traverse_tree_get_root_node self) as (d & Ht & Hg & Hl & _ & Hds).
  split.
  - by exists d.
  - intros Hwn. exists d. auto.
Qed.

Lemma traversals_consistent_well_named_witness :
  traversals_consistent (board_parser).
Proof.
  apply (proj2 (traversals_consistent_well_named (board_parser))).
  cbn [_dtb]. unfold board.
  constructor. constructor; [|constructor]. cbn [fst snd].
  split; [discriminate|]. split; [by_decide|].
  constructor. constructor.
Defined.

(** C7, as stated, fails: the record of the node [a@b@c] has the address
    [b], not [b@c]. *)
Lemma two_ats_address :
  __init__ two_ats = Ok (mkDtbParser two_ats ∅)
  /\ ~ addresses_after_first_at (mkDtbParser two_ats ∅).
Proof.
  split; [reflexivity|].
  intros Hclaim.
  destruct (traverse_tree_get_root_node (mkDtbParser two_ats ∅))
    as (d & Hd & _).
  specialize (Hclaim d Hd).
  vm_compute in Hd. injection Hd as <-.
  revert Hclaim. unfold address_after_first_at. by_decide.
Qed.

(** C7, amended. In every record of [traverse_tree], the address is
    absent when the name holds no ['@'], and otherwise it is the part of
    the name between the first ['@'] and the next one, or the end of the
    name: what follows the first ['@'] when no other ['@'] follows. *)
Theorem addresses_between_ats (self : DtbParser) :
  exists d,
    traverse_tree self = Ok [d]
    /\ Forall address_between_ats (records d)
    /\ Forall (fun r => at_sign ∉ after at_sign (NodeDict.name r) ->
                        address_after_first_at r)
              (records d).
Proof.
  destruct (traverse_tree_get_root_node self) as (d & Ht & _ & _ & Ha & _).
  exists d. split; [done|]. split; [done|].
  eapply Forall_impl; [exact Ha|]. intros r Hr Hone.
  unfold address_after_first_at. rewrite Hr.
  by rewrite (before_no_sep at_sign (after at_sign (NodeDict.name r))).
Qed.

Lemma addresses_between_ats_witness :
  exists d,
    traverse_tree (board_parser) = Ok [d]
    /\ NodeDict.address <$> records d = [None; Some (py "1000")].
Proof.
  destruct (addresses_between_ats (board_parser)) as (d & Hd & _ & Ha).
  exists d. split; [exact Hd|].
  vm_compute in Hd. injection Hd as <-.
  cbn [records flat_map app] in *.
  inversion_clear Ha as [|? ? _ Ha']. inversion_clear Ha' as [|? ? Hu _].
  cbn [fmap list_fmap]. rewrite Hu by by_decide. reflexivity.
Defined.

(** ** Queries *)

(** Construction succeeds on every blob and stores the index. *)
Lemma init_spec (root : fdt.Node) :
  exists m,
    __init__ root = Ok (mkDtbParser root m)
    /\ forall k,
         m !! k = last_declaring declared_phandle (walk (py "/") root) k.
Proof.
  destruct (build_phandle_map_spec root) as (m & Hm & Hk).
  exists m. unfold __init__. by rewrite Hm.
Qed.




(** C9. [resolve_phandle] never raises and leaves the parser as it was;
    it returns nothing when the value is not a key of the index and the
    indexed path when it is.  On a parser built from a blob, the answer
    is the path of the last visited node that declares the value. *)
Theorem resolve_phandle_lookup (self : DtbParser) (v : Z) :
  (resolve_phandle self v).1 = self
  /\ returns (resolve_phandle self v).2
  /\ (v ∉ dom (_phandle_map self) ->
      (resolve_phandle self v).2 = Ok None)
  /\ (forall q, _phandle_map self !! v = Some q ->
      (resolve_phandle self v).2 = Ok (Some q))
  /\ (forall root, __init__ root = Ok self ->
      (resolve_phandle self v).2
      = Ok (last_declaring declared_phandle (walk (py "/") root) v)).
Proof.
  unfold resolve_phandle. cbn [fst snd].
  split; [done|]. split; [by eexists|]. split; [|split].
  - intros Hv. by apply not_elem_of_dom in Hv as ->.
  - by intros q ->.
  - intros root Hinit.
    destruct (init_spec root) as (m & Hm & Hk).
    rewrite Hm in Hinit. injection Hinit as <-. cbn [_phandle_map].
    by rewrite Hk.
Qed.

Lemma resolve_phandle_lookup_witness :
  __init__ board = Ok board_parser
  /\ (resolve_phandle board_parser 5).2 = Ok (Some (py "/uart@1000"))
  /\ (resolve_phandle board_parser 6).2 = Ok None.
Proof.
  split; [reflexivity|]. split.
  - apply (proj1 (proj2 (proj2 (proj2
             (resolve_phandle_lookup board_parser 5))))).
    reflexivity.
  - apply (proj1 (proj2 (proj2 (resolve_phandle_lookup board_parser 6)))).
    by_decide.
Defined.

(** * Further properties *)

(** ** The decoder, read backwards *)

Lemma cell_like_length (d : bytes) :
  cell_like d -> exists k, (1 <= k)%nat /\ length d = (4 * k)%nat.
Proof.
  intros [Hne Hm]. exists (Z.to_nat (Z.of_nat (length d) / 4)).
  pose proof (Z.div_mod (Z.of_nat (length d)) 4).
  destruct d; [done|]. simpl length in *. lia.
Qed.

(** What the decoder does once the cell rule fires. *)
Lemma decode_cell_like (p : fdt.Property) :
  ~ string_like (fdt.data p) -> cell_like (fdt.data p) ->
  _decode_property p =
    match cells_of (fdt.data p) with
    | [c] => Ok (PInt c)
    | l => Ok (PIntList l)
    end.
Proof.
  intros Hs Hc. rewrite decode_not_string_like by done. cbv zeta.
  rewrite (proj2 (cell_test_true _)) by done.
  rewrite cells_loop by apply Hc.
  destruct (cells_of (fdt.data p)) as [|c [|c' l]]; simpl length.
  - by rewrite bool_decide_eq_false_2.
  - rewrite bool_decide_eq_true_2 by done. by rewrite getitem_0.
  - by rewrite bool_decide_eq_false_2.
Qed.

(** Data that is not string-like decodes to no text. *)
Lemma decode_not_text (p : fdt.Property) (v : PropertyValue) :
  ~ string_like (fdt.data p) -> _decode_property p = Ok v ->
  strings_of v = [].
Proof.
  intros Hs. destruct (decide (cell_like (fdt.data p))) as [Hc|Hc].
  - rewrite decode_cell_like by done.
    destruct (cells_of (fdt.data p)) as [|c [|c' l]]; by intros [= <-].
  - rewrite decode_raw by done. by intros [= <-].
Qed.

(** X1. A decoded value tells which rule fired and on what: a string
    comes from string-like data with one kept segment, a sequence of
    strings from string-like data with at least two, an integer from four
    bytes that are not string-like, a sequence of integers from at least
    eight such bytes, four per integer, and raw bytes are the data itself,
    which neither rule matches.  No sequence has fewer than two
    elements. *)
Theorem decode_inversion (p : fdt.Property) (v : PropertyValue) :
  _decode_property p = Ok v -> explains (fdt.data p) v.
Proof.
  destruct (decide (string_like (fdt.data p))) as [Hs|Hs].
  - rewrite decode_string_like by done.
    pose proof (kept_segments_not_nil _ (proj2 Hs)) as Hne.
    destruct (kept_segments (fdt.data p)) as [|s1 [|s2 segs]] eqn:E;
      [done| |]; intros [= <-]; cbn [explains]; rewrite ?E.
    + split; [done|]. by exists s1.
    + split; [done|]. split; [done|]. simpl. lia.
  - destruct (decide (cell_like (fdt.data p))) as [Hc|Hc].
    + rewrite decode_cell_like by done.
      destruct (cell_like_length _ Hc) as (k & Hk1 & Hk).
      pose proof (length_cells_of k _ Hk) as Hlen.
      destruct (cells_of (fdt.data p)) as [|c [|c' l]] eqn:E;
        simpl in Hlen; intros [= <-]; cbn [explains]; rewrite ?E.
      * lia.
      * split; [done|]. split; [lia | done].
      * split; [done|]. split; [done|]. split; [done|]. simpl. lia.
    + rewrite decode_raw by done. intros [= <-]. done.
Qed.

Lemma decode_inversion_witness :
  explains (fdt.data two_cells) (PIntList [0x01020304; 0x05060708]).
Proof. apply (decode_inversion two_cells). reflexivity. Defined.

Lemma cells_of_zeros (k : nat) (d : bytes) :
  length d = (4 * k)%nat -> Forall (fun b => b = x00) d ->
  cells_of d = replicate k 0.
Proof.
  revert d. induction k as [|k IH]; intros d Hd Hz.
  - by destruct d.
  - destruct d as [|a [|b [|c [|e r]]]]; simpl in Hd; try lia.
    do 4 (apply Forall_cons in Hz as [-> Hz]).
    cbn [cells_of replicate]. f_equal. apply IH; [lia | done].
Qed.

(** X2. Data made of zero bytes only is never text, whatever its length:
    four zero bytes decode to the integer 0, a longer multiple of four
    to as many zeros as there are 4-byte chunks, and any other length
    (the lone null byte, the empty data) to the raw bytes. *)
Theorem decode_all_zero (p : fdt.Property) :
  Forall (fun b => b = x00) (fdt.data p) ->
  (length (fdt.data p) = 4%nat -> _decode_property p = Ok (PInt 0))
  /\ (forall k, (2 <= k)%nat -> length (fdt.data p) = (4 * k)%nat ->
        _decode_property p = Ok (PIntList (replicate k 0)))
  /\ (Z.of_nat (length (fdt.data p)) mod 4 ≠ 0 ->
        _decode_property p = Ok (PBytes (fdt.data p)))
  /\ (fdt.data p = [] -> _decode_property p = Ok (PBytes [])).
Proof.
  intros Hz.
  assert (~ string_like (fdt.data p)) as Hs by (by intros [_ Hn]).
  split; [|split; [|split]].
  - intros H4. rewrite decode_cell_like; [|done|].
    + by rewrite (cells_of_zeros 1) by done.
    + split; [by destruct (fdt.data p) | rewrite H4; done].
  - intros k Hk Hlen. rewrite decode_cell_like; [|done|].
    + rewrite (cells_of_zeros k) by done.
      destruct k as [|[|k]]; [lia | lia | done].
    + split; [destruct (fdt.data p); [simpl in Hlen; lia | done]|].
      rewrite Hlen. replace (Z.of_nat (4 * k)) with (Z.of_nat k * 4) by lia.
      apply Z.mod_mul. lia.
  - intros Hm. apply decode_raw; [done|]. by intros [_ Hc].
  - intros Hd. rewrite decode_raw; [by rewrite Hd | done |].
    intros [Hne _]. done.
Qed.

Lemma decode_all_zero_witness :
  _decode_property (fdt.mkProperty [x00; x00; x00; x00] true) = Ok (PInt 0)
  /\ _decode_property
       (fdt.mkProperty [x00; x00; x00; x00; x00; x00; x00; x00] true)
     = Ok (PIntList [0; 0])
  /\ _decode_property (fdt.mkProperty [x00; x00] true)
     = Ok (PBytes [x00; x00]).
Proof.
  split; [|split].
  - apply (proj1 (decode_all_zero
                    (fdt.mkProperty [x00; x00; x00; x00] true)
                    ltac:(by_decide))).
    reflexivity.
  - apply (proj1 (proj2 (decode_all_zero
                    (fdt.mkProperty
                       [x00; x00; x00; x00; x00; x00; x00; x00] true)
                    ltac:(by_decide))) 2%nat); [lia | reflexivity].
  - apply (proj1 (proj2 (proj2 (decode_all_zero
                    (fdt.mkProperty [x00; x00] true)
                    ltac:(by_decide))))).
    by_decide.
Defined.

(** ** String lists, written and read back *)

Lemma split_absent {A} `{EqDecision A} (sep : A) (s : list A) :
  sep ∉ s -> split sep s = [s].
Proof.
  induction s as [|x r IH]; [done|].
  rewrite not_elem_of_cons. intros [Hx Hr]. simpl.
  rewrite bool_decide_eq_false_2 by congruence. by rewrite IH.
Qed.

Lemma split_app_sep {A} `{EqDecision A} (sep : A) (s rest : list A) :
  sep ∉ s -> split sep (s ++ sep :: rest) = s :: split sep rest.
Proof.
  induction s as [|x r IH]; intros Hs.
  - apply split_cons_sep.
  - apply not_elem_of_cons in Hs as [Hx Hr]. simpl.
    rewrite bool_decide_eq_false_2 by congruence. by rewrite IH.
Qed.

Lemma split_nul_terminated (segs : list bytes) :
  Forall (fun seg => x00 ∉ seg) segs ->
  split x00 (nul_terminated segs) = segs ++ [[]].
Proof.
  induction 1 as [|seg segs Hseg _ IH]; [done|].
  cbn [nul_terminated flat_map]. rewrite <- app_assoc. simpl app.
  rewrite split_app_sep by done. fold (nul_terminated segs).
  by rewrite IH.
Qed.

Lemma kept_segments_nul_terminated (segs : list bytes) :
  Forall (fun seg => seg ≠ [] /\ x00 ∉ seg) segs ->
  kept_segments (nul_terminated segs) = segs.
Proof.
  intros Hall. unfold kept_segments.
  rewrite split_nul_terminated
    by (eapply Forall_impl; [exact Hall | by intros ? [_ ?]]).
  rewrite filter_app, filter_cons, decide_False, filter_nil, app_nil_r
    by (intros Hn; by apply Hn).
  induction Hall as [|seg segs [Hne _] _ IH]; [done|].
  by rewrite filter_cons, decide_True, IH.
Qed.

Lemma string_like_nul_terminated (segs : list bytes) :
  segs ≠ [] -> Forall (fun seg => seg ≠ [] /\ x00 ∉ seg) segs ->
  string_like (nul_terminated segs).
Proof.
  intros Hne Hall. destruct Hall as [|seg segs [Hseg Hnul] _]; [done|].
  destruct seg as [|b seg]; [done|].
  apply not_elem_of_cons in Hnul as [Hb _].
  cbn [nul_terminated flat_map]. split.
  - rewrite <- app_assoc. apply elem_of_app. right. apply elem_of_cons. by left.
  - intros Hz. simpl in Hz. apply Forall_cons in Hz as [-> _]. done.
Qed.

Lemma utf8_ignore_ascii (seg : bytes) :
  Forall (fun b => byte_val b < 0x80) seg ->
  utf8_ignore seg = byte_val <$> seg.
Proof.
  induction 1 as [|b seg Hb _ IH]; [done|].
  cbn [utf8_ignore]. cbv zeta.
  rewrite (proj2 (Z.ltb_lt _ _)) by done. by rewrite IH, fmap_cons.
Qed.

(** X3. A devicetree string list reads back as written: the data made of
    non-empty, null-free byte strings, each followed by a null byte,
    decodes to the text of those strings, one for one and in order --
    as a single string when there is one, as a sequence otherwise.
    ASCII bytes decode to the characters of the same codes. *)
Theorem decode_nul_terminated (segs : list bytes) (t : bool) :
  segs ≠ [] ->
  Forall (fun seg => seg ≠ [] /\ x00 ∉ seg) segs ->
  _decode_property (fdt.mkProperty (nul_terminated segs) t)
  = match segs with
    | [seg] => Ok (PStr (utf8_ignore seg))
    | _ => Ok (PStrList (utf8_ignore <$> segs))
    end
  /\ (Forall (Forall (fun b => byte_val b < 0x80)) segs ->
      utf8_ignore <$> segs = fmap byte_val <$> segs).
Proof.
  intros Hne Hall. split.
  - rewrite decode_string_like
      by (by apply string_like_nul_terminated).
    cbn [fdt.data]. rewrite kept_segments_nul_terminated by done.
    by destruct segs as [|s1 [|s2 segs]].
  - intros Hascii. apply list_fmap_ext. intros i seg Hi.
    apply utf8_ignore_ascii.
    rewrite Forall_forall in Hascii. apply Hascii.
    by eapply list_elem_of_lookup_2.
Qed.

Lemma decode_nul_terminated_witness :
  _decode_property
    (fdt.mkProperty ["f"; "o"; "o"; x00; "b"; "a"; "r"; x00]%byte true)
  = Ok (PStrList [py "foo"; py "bar"]).
Proof.
  destruct (decode_nul_terminated
              [["f"; "o"; "o"]%byte; ["b"; "a"; "r"]%byte] true)
    as [Hd Ha].
  - discriminate.
  - by_decide.
  - cbn [nul_terminated flat_map app] in Hd. rewrite Hd, Ha.
    + reflexivity.
    + by_decide.
Defined.

(** ** Decoded text *)

Ltac bool_facts :=
  repeat match goal with
         | H : _ || _ = false |- _ => apply orb_false_iff in H as [? ?]
         | H : _ && _ = true |- _ => apply andb_true_iff in H as [? ?]
         | H : negb _ = false |- _ => apply negb_false_iff in H
         | H : negb _ = true |- _ => apply negb_true_iff in H
         | H : (_ <? _) = true |- _ => apply Z.ltb_lt in H
         | H : (_ <? _) = false |- _ => apply Z.ltb_ge in H
         | H : (_ <=? _) = true |- _ => apply Z.leb_le in H
         | H : (_ <=? _) = false |- _ => apply Z.leb_gt in H
         | H : (_ =? _) = false |- _ => apply Z.eqb_neq in H
         | H : (_ =? _) = true |- _ => apply Z.eqb_eq in H
         | H : (if ?c <? ?d then _ else _) = _ |- _ =>
             destruct (Z.ltb_spec c d)
         end.

(** The decoder of text yields Unicode scalar values only, and no U+0000
    from bytes that hold no null. *)
Lemma utf8_ignore_scalars (s : bytes) :
  x00 ∉ s -> Forall scalar_not_nul (utf8_ignore s).
Proof.
  remember (length s) as n eqn:Hn.
  assert (length s <= n)%nat as Hlen by lia. clear Hn.
  revert s Hlen. induction n as [|n IH]; intros s Hlen Hnul.
  { destruct s; [constructor | simpl in Hlen; lia]. }
  assert (forall r : bytes, (length r <= n)%nat -> r ⊆ s ->
            Forall scalar_not_nul (utf8_ignore r)) as Hrec.
  { intros r Hr Hsub. apply IH; [done|]. intros Hin. by apply Hnul, Hsub. }
  destruct s as [|b1 s1]; [constructor|].
  assert (byte_val b1 ≠ 0) as Hb1.
  { intros Hz. apply byte_val_zero in Hz. subst. apply Hnul. by left. }
  pose proof (byte_val_range b1). simpl in Hlen.
  cbn [utf8_ignore]. cbv zeta. unfold is_cont.
  repeat
    match goal with
    | |- Forall _ [] => constructor
    | |- Forall _ (utf8_ignore _) => apply Hrec; [simpl; lia | set_solver]
    | |- Forall _ (_ :: utf8_ignore _) =>
        constructor; [bool_facts; unfold scalar_not_nul; lia|]
    | |- context [if byte_val ?b <? ?d then _ else _] =>
        destruct (Z.ltb_spec (byte_val b) d)
    | |- context [match ?l with [] => _ | _ :: _ => _ end] =>
        let b := fresh "b" in
        destruct l as [|b l]; [|pose proof (byte_val_range b); simpl in Hlen]
    | |- context [if ?c then _ else _] => destruct c eqn:?
    end.
Qed.

(** X4. Every string the decoder returns is made of Unicode scalar values
    (no surrogate, nothing beyond U+10FFFF) and holds no U+0000: the
    segments are cut at the null bytes and undecodable bytes are
    dropped, not replaced.  The same holds of the compatible strings. *)
Theorem decoded_text_scalars (p : fdt.Property) (self : DtbParser) :
  (forall v, _decode_property p = Ok v ->
     Forall (Forall scalar_not_nul) (strings_of v))
  /\ (forall l, get_compatible_strings self = Ok l ->
        Forall (Forall scalar_not_nul) l).
Proof.
  assert (forall d, Forall (Forall scalar_not_nul)
                      (utf8_ignore <$> kept_segments d)) as Hkept.
  { intros d. apply Forall_fmap.
    eapply Forall_impl; [apply kept_segments_spec|].
    intros seg [_ Hnul]. by apply utf8_ignore_scalars. }
  split.
  - intros v Hv.
    destruct (decide (string_like (fdt.data p))) as [Hs|Hs].
    + destruct (decode_string_like_strings p Hs) as (v' & Hv' & _ & Hstr).
      rewrite Hv in Hv'. injection Hv' as <-. rewrite Hstr. apply Hkept.
    + rewrite (decode_not_text p v Hs Hv). constructor.
  - intros l. unfold get_compatible_strings.
    destruct (fdt.get_property _ _) as [prop|[]]; [|done|].
    + destruct (fdt.truth prop); intros [= <-]; [apply Hkept | constructor].
    + intros [= <-]. constructor.
Qed.

Lemma decoded_text_scalars_witness :
  Forall (Forall scalar_not_nul) [py "abc"]
  /\ Forall (Forall scalar_not_nul) [py "acme,board"].
Proof.
  split.
  - apply (proj1 (decoded_text_scalars abc_nul board_parser)
             (PStr (py "abc"))).
    reflexivity.
  - apply (proj2 (decoded_text_scalars abc_nul board_parser)
             [py "acme,board"]).
    reflexivity.
Defined.

(** X5. The compatible strings and the decoder read the same property
    alike when its data is string-like: the strings are those of the
    decoded value, the single string as a sequence of one.  They part on
    data without a null byte, which the decoder reads as cells or raw
    bytes and [get_compatible_strings] as one string. *)
Theorem compatible_strings_decoder (self : DtbParser) (prop : fdt.Property) :
  fdt.get_property (_dtb self) (py "compatible") = Ok prop ->
  fdt.truth prop = true ->
  (string_like (fdt.data prop) ->
   exists v, _decode_property prop = Ok v
             /\ get_compatible_strings self = Ok (strings_of v))
  /\ (fdt.data prop ≠ [] -> x00 ∉ fdt.data prop ->
      get_compatible_strings self = Ok [utf8_ignore (fdt.data prop)]
      /\ forall v, _decode_property prop = Ok v -> strings_of v = []).
Proof.
  intros Hget Ht.
  assert (get_compatible_strings self
          = Ok (utf8_ignore <$> kept_segments (fdt.data prop))) as Hgcs.
  { unfold get_compatible_strings. by rewrite Hget, Ht. }
  split.
  - intros Hs. destruct (decode_string_like_strings prop Hs) as (v & Hv & _ & Hstr).
    exists v. split; [done|]. by rewrite Hstr.
  - intros Hne Hnul. split.
    + rewrite Hgcs. unfold kept_segments.
      rewrite split_absent by done.
      by rewrite filter_cons, decide_True.
    + intros v Hv. apply (decode_not_text prop v); [|done].
      by intros [Hin _].
Qed.

Lemma compatible_strings_decoder_witness :
  exists v, _decode_property
              (fdt.mkProperty
                 ["a"; "c"; "m"; "e"; ","; "b"; "o"; "a"; "r"; "d"; x00]%byte
                 true) = Ok v
            /\ get_compatible_strings board_parser = Ok (strings_of v).
Proof.
  apply (proj1 (compatible_strings_decoder board_parser
                  (fdt.mkProperty
                     ["a"; "c"; "m"; "e"; ","; "b"; "o"; "a"; "r"; "d"; x00]%byte
                     true)
                  eq_refl eq_refl)).
  by_decide.
Defined.

(** ** Properties of a node *)

(** The loop over [props()] leaves under each name the decoding of the
    last property of that name. *)
Lemma props_loop_lookup (ps : list (str * fdt.Property))
    (m : gmap str PropertyValue) :
  exists m',
    for_each
      (fun '(prop_name, prop_value) props =>
         v ← _decode_property prop_value;
         Ok (<[prop_name := v]> props))
      ps m = Ok m'
    /\ forall k, m' !! k = match last_named k ps with
                           | Some kv => decoded kv.2
                           | None => m !! k
                           end.
Proof.
  revert m. induction ps as [|[name prop] ps IH]; intros m.
  - by exists m.
  - rewrite for_each_cons.
    destruct (decode_returns prop) as [v Hv]. rewrite Hv.
    cbn [mbind result_bind].
    destruct (IH (<[name := v]> m)) as (m' & Hm' & Hk).
    exists m'. split; [done|]. intros k. rewrite Hk.
    unfold last_named. rewrite filter_cons. cbn [fst].
    destruct (decide (name = k)) as [->|Hne].
    + rewrite last_cons.
      destruct (last (filter _ ps)); [done|].
      rewrite lookup_insert_eq. unfold decoded. cbn [snd]. by rewrite Hv.
    + destruct (last (filter _ ps)); [done|].
      by rewrite lookup_insert_ne.
Qed.

(** X6. The properties of a node, in either traversal, map each name the
    decoder node has to the decoded value of the last property of that
    name, and hold no other name: a repeated name keeps its last
    value. *)
Theorem properties_last_wins (p : str) ps subs :
  (forall t, _convert_fdt_node_to_custom p (fdt.mkNode ps subs) = Ok t ->
     forall k, properties t !! k
               = match last_named k ps with
                 | Some kv => decoded kv.2
                 | None => None
                 end)
  /\ (forall d, build_node_dict p (fdt.mkNode ps subs) = Ok d ->
        forall k, NodeDict.props d !! k
                  = match last_named k ps with
                    | Some kv => decoded kv.2
                    | None => None
                    end).
Proof.
  destruct (props_loop_lookup ps ∅) as (m & Hm & Hk).
  assert (forall k, m !! k = match last_named k ps with
                             | Some kv => decoded kv.2
                             | None => None
                             end) as Hk'.
  { intros k. rewrite Hk. by destruct (last_named k ps). }
  split.
  - intros t. cbn [_convert_fdt_node_to_custom]. rewrite Hm.
    cbn [mbind result_bind].
    destruct (for_each _ subs []); [|done]. cbn [mbind result_bind].
    destruct (node_name_of p); [|done]. cbn [mbind result_bind].
    by intros [= <-].
  - intros d. cbn [build_node_dict]. rewrite Hm.
    cbn [mbind result_bind].
    destruct (node_name_of p) as [name|]; [|done]. cbn [mbind result_bind].
    destruct (contains at_sign name).
    + destruct (getitem _ 1); [|done]. cbn [mbind result_bind].
      destruct (for_each _ subs []); [|done]. by intros [= <-].
    + cbn [mbind result_bind].
      destruct (for_each _ subs []); [|done]. by intros [= <-].
Qed.

Lemma properties_last_wins_witness :
  exists t, get_root_node board_parser = Ok t
            /\ properties t !! py "compatible" = Some (PStr (py "acme,board"))
            /\ properties t !! py "model" = None.
Proof.
  destruct (traversals_agree board (py "/")) as (d & _ & Ht).
  exists (forget d). split; [exact Ht|].
  split; rewrite (proj1 (properties_last_wins (py "/") _ _) _ Ht);
    reflexivity.
Defined.

(** ** One walk, three times *)



Lemma build_node_dict_walk (n : fdt.Node) :
  forall p d, build_node_dict p n = Ok d ->
    NodeDict.path <$> records d = fst <$> walk p n.
Proof.
  induction n as [ps subs IH] using Node_ind'. intros p d Hd.
  apply build_node_dict_inv in Hd as (props & name & cs & _ & Hcs & ->).
  cbn [records walk]. rewrite !fmap_cons. cbn [NodeDict.path fst]. f_equal.
  induction Hcs as [|[cn c] d rest cs Hc _ IHcs]; [done|].
  inversion_clear IH as [|? ? IHc IHrest].
  cbn [flat_map]. rewrite !fmap_app. cbn [fst snd] in *.
  by rewrite (IHc _ _ Hc), IHcs.
Qed.


(** X8. On a parser built from a blob, a phandle resolves only to the
    path of a record of [traverse_tree], and the node of the blob at
    that place of the walk declares the phandle. *)
Theorem resolved_path_in_tree (root : fdt.Node) (self : DtbParser)
    (v : Z) (q : str) :
  __init__ root = Ok self ->
  (resolve_phandle self v).2 = Ok (Some q) ->
  exists d,
    traverse_tree self = Ok [d]
    /\ q ∈ NodeDict.path <$> records d
    /\ exists n, (q, n) ∈ walk (py "/") root /\ declared_phandle n = Some v.
Proof.
  intros Hinit Hres.
  destruct (init_spec root) as (m & Hm & Hk).
  rewrite Hm in Hinit. injection Hinit as <-.
  unfold resolve_phandle in Hres. cbn [snd _phandle_map] in Hres.
  injection Hres as Hres. rewrite Hk in Hres.
  apply last_declaring_Some in Hres as (n & Hin & Hn).
  destruct (traversals_agree root (py "/")) as (d & Hd & _).
  exists d. unfold traverse_tree. cbn [_dtb]. rewrite Hd.
  split; [done|]. split; [|by exists n].
  rewrite (build_node_dict_walk _ _ _ Hd).
  apply list_elem_of_fmap. by exists (q, n).
Qed.

Lemma resolved_path_in_tree_witness :
  exists d,
    traverse_tree board_parser = Ok [d]
    /\ py "/uart@1000" ∈ NodeDict.path <$> records d.
Proof.
  destruct (resolved_path_in_tree board board_parser 5 (py "/uart@1000")
              eq_refl eq_refl) as (d & Hd & Hin & _).
  by exists d.
Defined.

Lemma last_filter_unique {X} (f : X -> option Z) (l : list X) (x : X) (k : Z) :
  NoDup (omap f l) -> x ∈ l -> f x = Some k ->
  last (filter (fun y => f y = Some k) l) = Some x.
Proof.
  induction l as [|y l IH]; intros Hnd Hin Hx.
  - by apply elem_of_nil in Hin.
  - cbn [omap list_omap] in Hnd. rewrite filter_cons.
    apply elem_of_cons in Hin as [<-|Hin].
    + rewrite Hx in Hnd. rewrite decide_True by done.
      apply NoDup_cons in Hnd as [Hk _].
      assert (filter (fun y => f y = Some k) l = []) as ->; [|done].
      destruct (filter (fun y => f y = Some k) l) as [|z r] eqn:E; [done|].
      assert (z ∈ filter (fun y => f y = Some k) l) as Hz
        by (rewrite E; by left).
      apply list_elem_of_filter in Hz as [Hz Hin].
      destruct Hk. apply list_elem_of_omap. by exists z.
    + assert (NoDup (omap f l)) as Hnd'.
      { destruct (f y); [by apply NoDup_cons in Hnd as [_ ?] | done]. }
      specialize (IH Hnd' Hin Hx).
      destruct (decide (f y = Some k)); [|done].
      rewrite last_cons. by rewrite IH.
Qed.

(** X9. When no phandle is declared twice in the blob, every declaring
    node is found again by its own phandle: resolving the value gives
    the path of that node. *)
Theorem distinct_phandles_resolve (root : fdt.Node) (self : DtbParser)
    (q : str) (n : fdt.Node) (k : Z) :
  __init__ root = Ok self ->
  NoDup (declared_phandles root) ->
  (q, n) ∈ walk (py "/") root ->
  declared_phandle n = Some k ->
  (resolve_phandle self k).2 = Ok (Some q).
Proof.
  intros Hinit Hnd Hin Hn.
  destruct (init_spec root) as (m & Hm & Hk).
  rewrite Hm in Hinit. injection Hinit as <-.
  unfold resolve_phandle. cbn [snd _phandle_map]. rewrite Hk.
  unfold last_declaring.
  by rewrite (last_filter_unique
                (fun pn : str * fdt.Node => declared_phandle pn.2)
                _ (q, n) k Hnd Hin Hn).
Qed.

Lemma distinct_phandles_resolve_witness :
  (resolve_phandle board_parser 5).2 = Ok (Some (py "/uart@1000")).
Proof.
  apply (distinct_phandles_resolve board board_parser (py "/uart@1000")
           (fdt.mkNode
              [(py "phandle", fdt.mkProperty [x00; x00; x00; x05] true);
               (py "reg",
                fdt.mkProperty [x00; x00; x10; x00; x00; x00; x01; x00] true)]
              [])
           5).
  - reflexivity.
  - vm_compute. repeat constructor. apply not_elem_of_nil.
  - unfold board. cbn [walk flat_map app]. right. left.
  - reflexivity.
Defined.

(** ** Names and paths *)






Lemma child_path_of_prefix (p child_name : str) :
  p `prefix_of` child_path_of p child_name.
Proof.
  unfold child_path_of. case_bool_decide as Hroot.
  - by apply prefix_app_r.
  - subst. by apply prefix_app_r.
Qed.

Lemma build_node_dict_prefix (n : fdt.Node) :
  forall p d, build_node_dict p n = Ok d ->
    Forall (fun r => p `prefix_of` NodeDict.path r) (records d).
Proof.
  induction n as [ps subs IH] using Node_ind'. intros p d Hd.
  apply build_node_dict_inv in Hd as (props & name & cs & _ & Hcs & ->).
  cbn [records]. constructor; [done|].
  induction Hcs as [|[cn c] d rest cs Hc _ IHcs]; [constructor|].
  inversion_clear IH as [|? ? IHc IHrest].
  cbn [flat_map]. apply Forall_app. split; [|by apply IHcs].
  cbn [fst snd] in *.
  eapply Forall_impl; [by apply (IHc (child_path_of p cn))|].
  intros r Hr. cbn beta in Hr.
  by etrans; [apply child_path_of_prefix|].
Qed.

Lemma build_node_dict_subtrees (n : fdt.Node) :
  forall p d, build_node_dict p n = Ok d ->
    Forall (fun r =>
              Forall (fun r' => NodeDict.path r `prefix_of` NodeDict.path r')
                     (records r))
           (records d).
Proof.
  induction n as [ps subs IH] using Node_ind'. intros p d Hd.
  pose proof (build_node_dict_prefix _ _ _ Hd) as Hown.
  apply build_node_dict_inv in Hd as (props & name & cs & _ & Hcs & ->).
  cbn [records]. constructor; [done|]. clear Hown.
  induction Hcs as [|[cn c] d rest cs Hc _ IHcs]; [constructor|].
  inversion_clear IH as [|? ? IHc IHrest].
  cbn [flat_map]. apply Forall_app. split; [|by apply IHcs].
  by apply (IHc (child_path_of p cn)).
Qed.

(** X11. Every path of a tree is absolute, and the path of every record
    under a node begins with the path of that node: a descendant never
    leaves the path of its ancestor. *)
Theorem paths_extend_parent (self : DtbParser) :
  exists d,
    traverse_tree self = Ok [d]
    /\ Forall (fun r => exists rest, NodeDict.path r = slash :: rest)
              (records d)
    /\ Forall (fun r =>
                 Forall (fun r' => NodeDict.path r `prefix_of` NodeDict.path r')
                        (records r))
              (records d).
Proof.
  destruct (traversals_agree (_dtb self) (py "/")) as (d & Hd & _).
  exists d. unfold traverse_tree. rewrite Hd. split; [done|]. split.
  - eapply Forall_impl; [by apply (build_node_dict_prefix _ _ _ Hd)|].
    intros r [rest Hr]. by exists rest.
  - by apply (build_node_dict_subtrees _ _ _ Hd).
Qed.

(** ** Paths name nodes *)








